(** * The detection pipeline of [src/predict.py]

    A shallow embedding of the five stage functions and of the driver
    [main].  Every stage is Python code that calls into the outside world
    (file system, HTTP, OpenCV, the YOLO capability, SQLite), so the
    embedding is a state-and-exception monad over an explicit [world];
    what the outside world answers is an [environment] of oracles over
    which every theorem quantifies. *)

From Stdlib Require Import ZArith QArith Ascii.
Close Scope Q_scope.
From stdpp Require Import base option list strings gmap.

Set Default Proof Using "Type".

(** ** Data *)

Definition bytes := list Byte.byte.

(** A decoded image, as [cv2.imread] returns it: an opaque pixel buffer. *)
Definition ndarray := bytes.

(** The exceptions the program can meet.  [External] stands for whatever a
    third-party call raises ([requests], the YOLO runtime, the SQL engine). *)
Inductive exn :=
  | FileNotFoundError
  | FileExistsError
  | IsADirectoryError
  | NotADirectoryError
  | ValueError
  | IndexError
  | OperationalError
  | ProgrammingError
  | External (code : nat).

Inductive outcome (A : Type) :=
  | Return (a : A)
  | Raise (e : exn).
Arguments Return {A} a.
Arguments Raise {A} e.

(** A two-dimensional numpy array: [columns] is its second dimension, which
    an array has whether or not it has rows, and [entries] its rows as
    [tolist()] gives them.  An array of one dimension has no second one and
    is read with [columns = 0]. *)
Record matrix := {
  columns : nat;
  entries : list (list Q);
}.

(** What [model(img)] hands back, for a capability that answers with numpy
    arrays as lines 60 to 62 expect: [xywh] holds one matrix per image of
    the batch, each matrix row being [x, y, w, h, confidence, class];
    [names] is the table of class labels. *)
Record results := {
  xywh : list matrix;
  names : list string;
}.

(** The detection capability is a callable; [cv2.imread] gives [None] for a
    file it cannot read, and that value reaches the capability as it is. *)
Definition model := option ndarray → exn + results.

(** One entry of the list built by [detect_objects_in_images]: the dict
    with keys ["image"], ["boxes"], ["labels"], ["confidences"]. *)
Record detection := {
  image : string;
  boxes : list (list Q);
  labels : list string;
  confidences : list Q;
}.

(** The seven parameters of the INSERT statement. *)
Record row := {
  image_name : string;
  label : string;
  confidence : Q;
  x_center : Q;
  y_center : Q;
  width : Q;
  height : Q;
}.

(** The file [detections.db]: the table [object_detections] (absent until
    created), its rows with their [id], and the AUTOINCREMENT counter. *)
Record database := {
  table : option (list (nat * row));
  sequence : nat;
}.

(** A [sqlite3] connection in its default transaction mode.  While a
    transaction is open, [pending] is the database as the connection sees
    it, with the changes not yet committed; otherwise the connection sees
    the committed database. *)
Record connection := {
  pending : option database;
  is_open : bool;
}.

Inductive node :=
  | File (content : bytes)
  | Dir.

Inductive statement :=
  | CreateTable
  | Insert (r : row).

Inductive log_record :=
  | Info (msg : string)
  | Error (msg : string) (e : exn).

(** Every call that leaves the program is recorded, in order. *)
Inductive event :=
  | EvConnect (path : string)
  | EvLoadModel (path : string)
  | EvMakedirs (dir : string)
  | EvGet (url : string) (answer : exn + bytes)
  | EvWrite (path : string) (data : bytes)
  | EvGlob (dir : string)
  | EvImread (path : string)
  | EvInfer (img : option ndarray)
  | EvExecute (s : statement)
  | EvCommit
  | EvRollback
  | EvClose
  | EvLog (l : log_record).

Record world := {
  fs : gmap string node;
  disk : database;
  conn : connection;
  requests : nat;
  statements : nat;
  trace : list event;
}.

(** What the outside world answers.  [http_get n url] is the body of the
    [n]-th request of the run when it goes to [url]; [sql_fault n] is the
    error, if any, with which the engine rejects the [n]-th statement;
    [load_weights path files] is what the constructor of the capability
    gives and the files it leaves behind (it creates the directory of
    [path] and fetches weights that are missing). *)
Record environment := {
  http_get : nat → string → exn + bytes;
  imdecode : bytes → option ndarray;
  load_weights : string → gmap string node → (exn + model) * gmap string node;
  sql_fault : nat → option exn;
  open_fault : string → option exn;
}.

(** ** The monad *)

Definition M (A : Type) : Type := world → outcome A * world.

Definition ret {A} (a : A) : M A := λ w, (Return a, w).

Definition raise {A} (e : exn) : M A := λ w, (Raise e, w).

Definition bind {A B} (m : M A) (k : A → M B) : M B := λ w,
  match m w with
  | (Return a, w1) => k a w1
  | (Raise e, w1) => (Raise e, w1)
  end.

#[global] Instance M_ret : MRet M := @ret.
#[global] Instance M_bind : MBind M := λ A B k m, bind m k.

(** [for x in xs: body(x)] *)
Fixpoint for_each {A} (xs : list A) (body : A → M unit) : M unit :=
  match xs with
  | [] => ret ()
  | x :: rest => body x;; for_each rest body
  end.

(** [for x in xs: acc.append(body(x))] with [acc] returned at the end. *)
Fixpoint collect {A B} (xs : list A) (body : A → M B) : M (list B) :=
  match xs with
  | [] => ret []
  | x :: rest => b ← body x; bs ← collect rest body; ret (b :: bs)
  end.

Definition emit (ev : event) (w : world) : world :=
  {| fs := fs w; disk := disk w; conn := conn w; requests := requests w;
     statements := statements w; trace := trace w ++ [ev] |}.

Definition logging_info (msg : string) : M unit := λ w,
  (Return (), emit (EvLog (Info msg)) w).

(** [try: body  except Exception as e: logging.error(f"{msg}: {e}"); raise] *)
Definition try_log {A} (msg : string) (body : M A) : M A := λ w,
  match body w with
  | (Return a, w1) => (Return a, w1)
  | (Raise e, w1) => (Raise e, emit (EvLog (Error msg e)) w1)
  end.

(** ** Strings and paths *)

Definition digit (n : nat) : Ascii.ascii := Ascii.ascii_of_nat (48 + n).

Fixpoint decimal_go (fuel n : nat) (acc : string) : string :=
  match fuel with
  | 0 => acc
  | S fuel' =>
      let acc' := String (digit (n `mod` 10)) acc in
      if (n `div` 10 =? 0)%nat then acc' else decimal_go fuel' (n `div` 10) acc'
  end.

(** [f"{n}"] for a non-negative integer. *)
Definition str (n : nat) : string := decimal_go (S n) n "".

Fixpoint starts_with (p s : string) : bool :=
  match p, s with
  | EmptyString, _ => true
  | String a p', String b s' => if Ascii.eqb a b then starts_with p' s' else false
  | String _ _, EmptyString => false
  end.

Definition ends_with (suffix s : string) : bool :=
  starts_with (String.rev suffix) (String.rev s).

(** [os.path.join(a, b)] of [posixpath]. *)
Definition path_join (a b : string) : string :=
  if starts_with "/" b then b
  else if String.eqb a "" || ends_with "/" a then a +:+ b
  else a +:+ "/" +:+ b.

Fixpoint after_last_slash (p cur : string) : string :=
  match p with
  | EmptyString => cur
  | String c rest =>
      if Ascii.eqb c "/"%char then after_last_slash rest rest
      else after_last_slash rest cur
  end.

(** [Path(p).name]: the last component of the path. *)
Definition path_name (p : string) : string := after_last_slash p p.

(** The components of a path, cut at every ["/"]. *)
Fixpoint split_path (p : string) : list string :=
  match p with
  | EmptyString => [""]
  | String c rest =>
      if Ascii.eqb c "/"%char then "" :: split_path rest
      else match split_path rest with
           | [] => [String c ""]
           | s :: ss => String c s :: ss
           end
  end.

(** One step along a path, from the directories entered so far (innermost
    first, ["/"] standing for the root): an empty component and ["."] stay
    where they are, [".."] leaves the directory entered last, a name enters
    it. *)
Definition enter (here : list string) (c : string) : list string :=
  if String.eqb c "" || String.eqb c "." then here
  else if String.eqb c ".." then
    match here with
    | [] => [".."]
    | top :: rest =>
        if String.eqb top ".." then ".." :: here
        else if String.eqb top "/" then here
        else rest
    end
  else c :: here.

(** Where a path leads, from the root or from the working directory: two
    spellings of one place, as ["images"], ["./images"] and ["images//"],
    lead to the same. *)
Definition resolve (p : string) : list string :=
  foldl enter (if starts_with "/" p then ["/"] else []) (split_path p).

(** The entries of [dir] whose name matches [*.jpg], as
    [Path(dir).glob("*.jpg")] lists them (in the order of the directory
    scan, which nothing fixes; directories named [*.jpg] are listed too).
    An entry of the directory is a file whose path leads one name further
    than [dir] does, however [dir] is spelled. *)
Definition glob_jpg (dir : string) (files : gmap string node) : list string :=
  List.filter
    (λ p, bool_decide (resolve p = path_name p :: resolve dir)
          && ends_with ".jpg" (path_name p))
    (map_to_list files).*1.

(** The directories on the way to a path: what stands before each ["/"]
    that ends a name, outermost first. *)
Fixpoint ancestors_from (before rest : string) : list string :=
  match rest with
  | EmptyString => []
  | String c rest' =>
      (if Ascii.eqb c "/"%char && negb (String.eqb before "") && negb (ends_with "/" before)
       then [before] else [])
      ++ ancestors_from (before +:+ String c "") rest'
  end.

Definition ancestors (p : string) : list string := ancestors_from "" p.

(** ** Reading the capability's answer *)

(** [int(q)], rounding towards zero as [astype(int)] does. *)
Definition astype_int (q : Q) : Z := Z.quot (Qnum q) (Z.pos (Qden q)).

(** [m[:, k]]: column [k] of a matrix; an IndexError when the matrix has
    no such column, rows or no rows. *)
Definition column (k : nat) (m : matrix) : option (list Q) :=
  if (k <? columns m)%nat then mapM (λ r : list Q, r !! k) (entries m) else None.

(** [names[i]] with Python's negative indices. *)
Definition index_name (names : list string) (i : Z) : option string :=
  if (0 <=? i)%Z then names !! Z.to_nat i
  else if (- Z.of_nat (length names) <=? i)%Z
       then names !! Z.to_nat (Z.of_nat (length names) + i)
       else None.

(** The dict appended for one image; [None] when one of the look-ups is
    out of range (an IndexError in the source). *)
Definition detection_of (name : string) (res : results) : option detection :=
  m ← xywh res !! 0;
  classes ← column 5 m;
  lbls ← mapM (index_name (names res)) (astype_int <$> classes);
  confs ← column 4 m;
  Some {| image := name; boxes := entries m; labels := lbls; confidences := confs |}.

Definition from_option_or {A} (e : exn) (o : option A) : M A :=
  match o with
  | Some a => ret a
  | None => raise e
  end.

(** ** The outside world *)

Definition is_file (files : gmap string node) (p : string) : bool :=
  match files !! p with
  | Some (File _) => true
  | _ => false
  end.

(** [os.mkdir(p)] where nothing stands in its way. *)
Definition make_dir (files : gmap string node) (p : string) : gmap string node :=
  match files !! p with
  | None => <[p := Dir]> files
  | Some _ => files
  end.

Definition set_fs (f : gmap string node) (w : world) : world :=
  {| fs := f; disk := disk w; conn := conn w; requests := requests w;
     statements := statements w; trace := trace w |}.

Definition set_db (d : database) (c : connection) (w : world) : world :=
  {| fs := fs w; disk := d; conn := c; requests := requests w;
     statements := statements w; trace := trace w |}.

Definition next_request (w : world) : world :=
  {| fs := fs w; disk := disk w; conn := conn w; requests := S (requests w);
     statements := statements w; trace := trace w |}.

Definition next_statement (w : world) : world :=
  {| fs := fs w; disk := disk w; conn := conn w; requests := requests w;
     statements := S (statements w); trace := trace w |}.

(** [CREATE TABLE IF NOT EXISTS object_detections (...)] *)
Definition ensure_table (d : database) : database :=
  match table d with
  | Some _ => d
  | None => {| table := Some []; sequence := sequence d |}
  end.

(** The database as the connection sees it. *)
Definition view (w : world) : database := default (disk w) (pending (conn w)).

(** One INSERT: the row gets the next AUTOINCREMENT id. *)
Definition append_row (r : row) (rows : list (nat * row)) (d : database) : database :=
  {| table := Some (rows ++ [(S (sequence d), r)]); sequence := S (sequence d) |}.

Section Program.

Context (E : environment).

(** [YOLOv5(model_path)] *)
Definition YOLOv5 (model_path : string) : M model := λ w,
  let w := emit (EvLoadModel model_path) w in
  let (answer, files) := load_weights E model_path (fs w) in
  match answer with
  | inl e => (Raise e, set_fs files w)
  | inr m => (Return m, set_fs files w)
  end.

(** [os.makedirs(dir, exist_ok=True)]: a directory that exists is left
    as it is; otherwise every directory on the way to [dir] that is missing
    is created, outermost first, and then [dir].  A regular file at [dir]
    is a FileExistsError, one on the way to it a NotADirectoryError. *)
Definition os_makedirs (dir : string) : M unit := λ w,
  let w := emit (EvMakedirs dir) w in
  if String.eqb dir "" then (Raise FileNotFoundError, w)
  else match fs w !! dir with
       | Some Dir => (Return (), w)
       | Some (File _) => (Raise FileExistsError, w)
       | None =>
           if existsb (is_file (fs w)) (ancestors dir)
           then (Raise NotADirectoryError, w)
           else (Return (), set_fs (foldl make_dir (fs w) (ancestors dir ++ [dir])) w)
       end.

(** [requests.get(url).content] *)
Definition requests_get (url : string) : M bytes := λ w,
  let answer := http_get E (requests w) url in
  let w := emit (EvGet url answer) (next_request w) in
  match answer with
  | inl e => (Raise e, w)
  | inr body => (Return body, w)
  end.

(** [with open(path, "wb") as f: f.write(data)] *)
Definition write_file (path : string) (data : bytes) : M unit := λ w,
  let w := emit (EvWrite path data) w in
  match fs w !! path with
  | Some Dir => (Raise IsADirectoryError, w)
  | _ => (Return (), set_fs (<[path := File data]> (fs w)) w)
  end.

(** [Path(dir).glob("*.jpg")] *)
Definition path_glob (dir : string) : M (list string) := λ w,
  (Return (glob_jpg dir (fs w)), emit (EvGlob dir) w).

(** [cv2.imread(path)]: [None] when the file is missing or does not
    decode; no exception is raised for that. *)
Definition imread (files : gmap string node) (path : string) : option ndarray :=
  match files !! path with
  | Some (File content) => imdecode E content
  | _ => None
  end.

Definition cv2_imread (path : string) : M (option ndarray) := λ w,
  (Return (imread (fs w) path), emit (EvImread path) w).

(** [model(img)] *)
Definition call_model (m : model) (img : option ndarray) : M results := λ w,
  let w := emit (EvInfer img) w in
  match m img with
  | inl e => (Raise e, w)
  | inr res => (Return res, w)
  end.

(** [sqlite3.connect(path)] *)
Definition sqlite3_connect (path : string) : M unit := λ w,
  let w := emit (EvConnect path) w in
  match open_fault E path with
  | Some e => (Raise e, w)
  | None => (Return (), set_db (disk w) {| pending := None; is_open := true |} w)
  end.

(** [connection.execute(statement, parameters)].  A statement on a closed
    connection is a ProgrammingError; an INSERT into a missing table is an
    OperationalError, found when the statement is prepared; an INSERT opens
    a transaction if none is open; a CREATE TABLE outside a transaction
    takes effect in the database at once. *)
Definition connection_execute (s : statement) : M unit := λ w,
  let w := emit (EvExecute s) w in
  if negb (is_open (conn w)) then (Raise ProgrammingError, w)
  else
    let n := statements w in
    let w := next_statement w in
    match s with
    | CreateTable =>
        match sql_fault E n with
        | Some e => (Raise e, w)
        | None =>
            (Return (),
             match pending (conn w) with
             | Some d =>
                 set_db (disk w) {| pending := Some (ensure_table d); is_open := true |} w
             | None =>
                 set_db (ensure_table (disk w)) {| pending := None; is_open := true |} w
             end)
        end
    | Insert r =>
        match table (view w) with
        | None => (Raise OperationalError, w)
        | Some rows =>
            match sql_fault E n with
            | Some e =>
                (Raise e,
                 set_db (disk w) {| pending := Some (view w); is_open := true |} w)
            | None =>
                (Return (),
                 set_db (disk w)
                   {| pending := Some (append_row r rows (view w)); is_open := true |} w)
            end
        end
    end.

(** [connection.commit()] *)
Definition connection_commit : M unit := λ w,
  let w := emit EvCommit w in
  if negb (is_open (conn w)) then (Raise ProgrammingError, w)
  else (Return (), set_db (view w) {| pending := None; is_open := true |} w).

(** [connection.rollback()] *)
Definition connection_rollback : M unit := λ w,
  let w := emit EvRollback w in
  if negb (is_open (conn w)) then (Raise ProgrammingError, w)
  else (Return (), set_db (disk w) {| pending := None; is_open := true |} w).

(** [with connection: body]: commit when the body returns, roll back and
    re-raise when it raises. *)
Definition with_connection {A} (body : M A) : M A := λ w,
  match body w with
  | (Return a, w1) =>
      match connection_commit w1 with
      | (Return _, w2) => (Return a, w2)
      | (Raise e, w2) => (Raise e, w2)
      end
  | (Raise e, w1) =>
      match connection_rollback w1 with
      | (Return _, w2) => (Raise e, w2)
      | (Raise e', w2) => (Raise e', w2)
      end
  end.

(** [connection.close()]: an open transaction is dropped. *)
Definition connection_close : M unit := λ w,
  let w := emit EvClose w in
  (Return (), set_db (disk w) {| pending := None; is_open := false |} w).

(** ** The stages (log messages are kept without their leading pictograph) *)

Definition setup_yolo_model (model_path : string) : M model :=
  try_log "Error loading YOLO model"
    (m ← YOLOv5 model_path;
     logging_info ("YOLO model loaded from " +:+ model_path);;
     mret m).

Definition download_images_from_telegram (channel_url download_dir : string) : M unit :=
  try_log "Error downloading images"
    (os_makedirs download_dir;;
     for_each (seq 0 5) (λ i,
       let image_url := channel_url +:+ "/image_" +:+ str i +:+ ".jpg" in
       image_data ← requests_get image_url;
       let image_path := path_join download_dir ("image_" +:+ str i +:+ ".jpg") in
       write_file image_path image_data;;
       logging_info ("Image " +:+ str i +:+ " downloaded."))).

Definition detect_objects_in_images (m : model) (image_dir : string) : M (list detection) :=
  try_log "Error detecting objects"
    (paths ← path_glob image_dir;
     collect paths (λ image_path,
       img ← cv2_imread image_path;
       res ← call_model m img;
       d ← from_option_or IndexError (detection_of (path_name image_path) res);
       logging_info ("Detected objects in " +:+ path_name image_path);;
       mret d)).

(** [x_center, y_center, width, height = box[:4]] *)
Definition unpack4 (box : list Q) : M (Q * Q * Q * Q) :=
  match take 4 box with
  | [x; y; w; h] => mret (x, y, w, h)
  | _ => raise ValueError
  end.

(** [zip(a, b, c)] stops at the shortest of the three. *)
Fixpoint zip3 {A B C} (a : list A) (b : list B) (c : list C) : list (A * B * C) :=
  match a, b, c with
  | x :: a', y :: b', z :: c' => (x, y, z) :: zip3 a' b' c'
  | _, _, _ => []
  end.

Definition store_detection_results (detections : list detection) : M unit :=
  try_log "Error storing detection results"
    (with_connection
       (for_each detections (λ d,
          for_each (zip3 (boxes d) (labels d) (confidences d)) (λ '(box, lbl, conf),
            '(x, y, w, h) ← unpack4 box;
            connection_execute
              (Insert {| image_name := image d; label := lbl; confidence := conf;
                         x_center := x; y_center := y; width := w; height := h |}))));;
     logging_info (str (length detections) +:+ " detection results stored in database.")).

Definition create_database_table : M unit :=
  try_log "Error creating table"
    (with_connection (connection_execute CreateTable);;
     logging_info "Table 'object_detections' created successfully.").

Definition channel : string := "https://t.me/lobelia4cosmetics".

Definition main : M unit :=
  sqlite3_connect "detections.db";;
  m ← setup_yolo_model "yolov5s.pt";
  download_images_from_telegram channel "images";;
  detections ← detect_objects_in_images m "images";
  create_database_table;;
  store_detection_results detections;;
  connection_close;;
  logging_info "Process completed successfully.".

End Program.

(** * What the theorems observe *)

(** ** The rows of a call to [store_detection_results] *)

(** The row the loop body builds from one zipped triple; [None] when the
    box has fewer than four components and the unpacking raises. *)
Definition row_of (name : string) (t : list Q * string * Q) : option row :=
  match take 4 t.1.1 with
  | [x; y; w; h] =>
      Some {| image_name := name; label := t.1.2; confidence := t.2;
              x_center := x; y_center := y; width := w; height := h |}
  | _ => None
  end.

(** The loop nest of [store_detection_results], flattened: one entry per
    zipped triple, in the order the loops visit them. *)
Definition attempts (ds : list detection) : list (option row) :=
  d ← ds; row_of (image d) <$> zip3 (boxes d) (labels d) (confidences d).

Definition db_rows (d : database) : list (nat * row) := default [] (table d).

(** The database after inserting [rs] one after the other. *)
Definition add_rows (rs : list row) (d : database) : database :=
  foldl (λ d r, append_row r (db_rows d) d) d rs.

(** The statements among the events of a trace. *)
Definition executed (evs : list event) : list statement :=
  omap (λ ev, match ev with EvExecute s => Some s | _ => None end) evs.

(** One turn of the flattened loop nest. *)
Definition insert_attempt (E : environment) (o : option row) : M unit :=
  match o with
  | Some r => connection_execute E (Insert r)
  | None => raise ValueError
  end.

(** What ends the loop of inserts early on an open connection whose table
    exists, [n] statements having been issued before: the ValueError of
    the unpacking at line 87 for a box of fewer than four components, or
    the error with which the engine rejects a statement. *)
Fixpoint first_obstacle (E : environment) (n : nat) (rs : list (option row)) : option exn :=
  match rs with
  | [] => None
  | None :: _ => Some ValueError
  | Some _ :: rest =>
      match sql_fault E n with
      | Some e => Some e
      | None => first_obstacle E (S n) rest
      end
  end.

(** The log lines that end a call to [store_detection_results]. *)
Definition storing_failed (e : exn) : event :=
  EvLog (Error "Error storing detection results" e).

Definition stored (n : nat) : event :=
  EvLog (Info (str n +:+ " detection results stored in database.")).

(** The row that position [j] of a group describes, read by index from the
    three arrays of the group. *)
Definition triple_row (name : string) (bs : list (list Q)) (ls : list string)
    (cs : list Q) (j : nat) : row :=
  let box := default [] (bs !! j) in
  {| image_name := name;
     label := default "" (ls !! j);
     confidence := default 0%Q (cs !! j);
     x_center := default 0%Q (box !! 0);
     y_center := default 0%Q (box !! 1);
     width := default 0%Q (box !! 2);
     height := default 0%Q (box !! 3) |}.

Definition row_at (d : detection) (j : nat) : row :=
  triple_row (image d) (boxes d) (labels d) (confidences d) j.

(** The length of the shortest of the three arrays of a group. *)
Definition min3 (d : detection) : nat :=
  length (boxes d) `min` (length (labels d) `min` length (confidences d)).

(** A group as the capability is meant to produce it. *)
Definition aligned (d : detection) : Prop :=
  length (labels d) = length (boxes d)
  ∧ length (confidences d) = length (boxes d)
  ∧ Forall (λ box, 4 ≤ length box) (boxes d).

(** The number of (box, label, confidence) triples of a list of groups. *)
Definition triples (ds : list detection) : nat :=
  sum_list (length ∘ boxes <$> ds).

(** What the body of the loop of [detect_objects_in_images] comes to for
    the file [p]: the group it appends, or the exception that ends the
    loop. *)
Definition analyse (E : environment) (m : model) (files : gmap string node)
    (p : string) : exn + detection :=
  match m (imread E files p) with
  | inl e => inl e
  | inr res =>
      match detection_of (path_name p) res with
      | Some d => inr d
      | None => inl IndexError
      end
  end.

(** The files read with [cv2.imread] among the events of a trace. *)
Definition reads (evs : list event) : list string :=
  omap (λ ev, match ev with EvImread p => Some p | _ => None end) evs.

Definition emits (evs : list event) (w : world) : world :=
  foldl (λ w ev, emit ev w) w evs.

(** The body of the loop of [detect_objects_in_images]. *)
Definition detect_one (E : environment) (m : model) (image_path : string) : M detection :=
  img ← cv2_imread E image_path;
  res ← call_model m img;
  d ← from_option_or IndexError (detection_of (path_name image_path) res);
  logging_info ("Detected objects in " +:+ path_name image_path);;
  mret d.

(** The stages of a run, and the stage an event belongs to (log lines
    belong to none). *)
Inductive stage :=
  | Opening
  | Loading
  | Fetching
  | Detecting
  | Persisting
  | Closing.

Definition stage_of (ev : event) : option stage :=
  match ev with
  | EvConnect _ => Some Opening
  | EvLoadModel _ => Some Loading
  | EvMakedirs _ | EvGet _ _ | EvWrite _ _ => Some Fetching
  | EvGlob _ | EvImread _ | EvInfer _ => Some Detecting
  | EvExecute _ | EvCommit | EvRollback => Some Persisting
  | EvClose => Some Closing
  | EvLog _ => None
  end.

Definition rank (s : stage) : nat :=
  match s with
  | Opening => 0
  | Loading => 1
  | Fetching => 2
  | Detecting => 3
  | Persisting => 4
  | Closing => 5
  end.

Definition at_stage (s : stage) (ev : event) : Prop :=
  match stage_of ev with
  | Some s' => s' = s
  | None => True
  end.

Definition detecting_failed (e : exn) : event :=
  EvLog (Error "Error detecting objects" e).

Definition creating_failed (e : exn) : event :=
  EvLog (Error "Error creating table" e).

Definition created : event :=
  EvLog (Info "Table 'object_detections' created successfully.").

(** The URL, the file name and the path of image [i] of the batch. *)
Definition image_url (channel_url : string) (i : nat) : string :=
  channel_url +:+ "/image_" +:+ str i +:+ ".jpg".

Definition image_file (i : nat) : string := "image_" +:+ str i +:+ ".jpg".

Definition image_path (download_dir : string) (i : nat) : string :=
  path_join download_dir (image_file i).

(** The body of the loop of [download_images_from_telegram]. *)
Definition fetch_one (E : environment) (channel_url download_dir : string) (i : nat) : M unit :=
  image_data ← requests_get E (image_url channel_url i);
  write_file (image_path download_dir i) image_data;;
  logging_info ("Image " +:+ str i +:+ " downloaded.").

(** The events of the turns of that loop that fetch and write images
    [a], [a+1], ... with the given bodies. *)
Fixpoint fetch_events (channel_url download_dir : string) (a : nat)
    (bodies : list bytes) : list event :=
  match bodies with
  | [] => []
  | body :: rest =>
      EvGet (image_url channel_url a) (inr body)
      :: EvWrite (image_path download_dir a) body
      :: EvLog (Info ("Image " +:+ str a +:+ " downloaded."))
      :: fetch_events channel_url download_dir (S a) rest
  end.

(** The file system after those turns. *)
Fixpoint write_all (download_dir : string) (a : nat) (bodies : list bytes)
    (files : gmap string node) : gmap string node :=
  match bodies with
  | [] => files
  | body :: rest =>
      write_all download_dir (S a) rest (<[image_path download_dir a := File body]> files)
  end.

(** The file system after [os.makedirs(dir, exist_ok=True)] has returned. *)
Definition with_dir (dir : string) (files : gmap string node) : gmap string node :=
  match files !! dir with
  | None => foldl make_dir files (ancestors dir ++ [dir])
  | Some _ => files
  end.

(** The exception with which [os.makedirs(dir, exist_ok=True)] refuses, if
    it does. *)
Definition makedirs_refusal (dir : string) (files : gmap string node) : option exn :=
  if String.eqb dir "" then Some FileNotFoundError
  else match files !! dir with
       | Some (File _) => Some FileExistsError
       | Some Dir => None
       | None =>
           if existsb (is_file files) (ancestors dir) then Some NotADirectoryError
           else None
       end.

(** The URLs requested and the paths written among the events of a trace. *)
Definition requested (evs : list event) : list string :=
  omap (λ ev, match ev with EvGet url _ => Some url | _ => None end) evs.

Definition written (evs : list event) : list string :=
  omap (λ ev, match ev with EvWrite path _ => Some path | _ => None end) evs.

Definition downloading_failed (e : exn) : event :=
  EvLog (Error "Error downloading images" e).

(** How a turn of the loop can fail at image [i]: the request raises, or
    the body arrives and the path turns out to be a directory. *)
Definition failed_turn (channel_url download_dir : string) (i : nat) (e : exn)
    (tail : list event) : Prop :=
  tail = [EvGet (image_url channel_url i) (inl e)]
  ∨ ∃ body, tail = [EvGet (image_url channel_url i) (inr body);
                    EvWrite (image_path download_dir i) body]
            ∧ e = IsADirectoryError.

(** ** How far a run of [main] gets *)

(** The connection is open and the capability loaded. *)
Definition loaded (E : environment) (w : world) (m : model) (w1 : world) : Prop :=
  ∃ w0, sqlite3_connect E "detections.db" w = (Return (), w0)
        ∧ setup_yolo_model E "yolov5s.pt" w0 = (Return m, w1).

(** The fetcher has returned as well. *)
Definition fetched (E : environment) (w : world) (m : model) (w2 : world) : Prop :=
  ∃ w1, loaded E w m w1
        ∧ download_images_from_telegram E channel "images" w1 = (Return (), w2).

(** The detector has returned as well, with the groups [ds]. *)
Definition detected (E : environment) (w : world) (ds : list detection)
    (w3 : world) : Prop :=
  ∃ m w2, fetched E w m w2
          ∧ detect_objects_in_images E m "images" w2 = (Return ds, w3).

(** The runs of [main]: the stage at which a run ends, and how. *)
Inductive run (E : environment) (w : world) : outcome () → world → Prop :=
  | open_failed e w0 :
      sqlite3_connect E "detections.db" w = (Raise e, w0) →
      run E w (Raise e) w0
  | load_failed w0 e w1 :
      sqlite3_connect E "detections.db" w = (Return (), w0) →
      setup_yolo_model E "yolov5s.pt" w0 = (Raise e, w1) →
      run E w (Raise e) w1
  | fetch_failed m w1 e w2 :
      loaded E w m w1 →
      download_images_from_telegram E channel "images" w1 = (Raise e, w2) →
      run E w (Raise e) w2
  | detect_failed m w2 e w3 :
      fetched E w m w2 →
      detect_objects_in_images E m "images" w2 = (Raise e, w3) →
      run E w (Raise e) w3
  | create_failed ds w3 e w4 :
      detected E w ds w3 →
      create_database_table E w3 = (Raise e, w4) →
      run E w (Raise e) w4
  | store_failed ds w3 w4 e w5 :
      detected E w ds w3 →
      create_database_table E w3 = (Return (), w4) →
      store_detection_results E ds w4 = (Raise e, w5) →
      run E w (Raise e) w5
  | completed ds w3 w4 w5 w6 :
      detected E w ds w3 →
      create_database_table E w3 = (Return (), w4) →
      store_detection_results E ds w4 = (Return (), w5) →
      connection_close w5 = (Return (), w6) →
      run E w (Return ()) (emit (EvLog (Info "Process completed successfully.")) w6).

(** Stages come in order along a trace: no event belongs to a stage
    before the stage of an event that precedes it ([lo] is the rank
    reached so far). *)
Fixpoint in_order (lo : nat) (evs : list event) : Prop :=
  match evs with
  | [] => True
  | ev :: rest =>
      match stage_of ev with
      | Some s => lo ≤ rank s ∧ in_order (rank s) rest
      | None => in_order lo rest
      end
  end.

(** A trace whose stages come in order and go no further than rank [k]. *)
Definition orderly (k : nat) (evs : list event) : Prop :=
  in_order 0 evs ∧ Forall (λ ev, ∀ s, stage_of ev = Some s → rank s ≤ k) evs.

(** No request of the trace was answered by an exception. *)
Definition no_failed_get (evs : list event) : Prop :=
  ∀ u e, EvGet u (inl e) ∉ evs.

(** ** Sample runs *)

Definition empty_db : database := {| table := None; sequence := 0 |}.

(** A fresh machine: no file, no database, no connection. *)
Definition fresh : world :=
  {| fs := ∅; disk := empty_db; conn := {| pending := None; is_open := false |};
     requests := 0; statements := 0; trace := [] |}.

(** A capability that accepts whatever it is given, a missing image
    included, and finds nothing. *)
Definition tolerant : model :=
  λ _, inr {| xywh := [{| columns := 6; entries := [] |}]; names := [] |}.

(** A capability that rejects a missing image and finds one cream jar in
    any other. *)
Definition strict : model := λ img,
  match img with
  | None => inl (External 2)
  | Some _ =>
      inr {| xywh := [{| columns := 6; entries := [[120.5; 64; 40; 30; 0.87; 1]%Q] |}];
             names := ["lotion"; "cream jar"] |}
  end.


(** An outside world in which every call succeeds and every file decodes. *)
Definition calm (m : model) : environment :=
  {| http_get := λ _ _, inr [Byte.x4a; Byte.x46];
     imdecode := λ content, Some content;
     load_weights := λ _ files, (inr m, files);
     sql_fault := λ _, None;
     open_fault := λ _, None |}.

(** The same, except that no file decodes. *)
Definition undecodable (m : model) : environment :=
  {| http_get := λ _ _, inr [Byte.x4a; Byte.x46];
     imdecode := λ _, None;
     load_weights := λ _ files, (inr m, files);
     sql_fault := λ _, None;
     open_fault := λ _, None |}.

(** A directory [images] holding one file. *)
Definition one_image : world :=
  set_fs (<["images/bad.jpg" := File [Byte.x00]]> (<["images" := Dir]> ∅)) fresh.

(** An outside world in which the weights cannot be loaded. *)
Definition no_weights : environment :=
  {| http_get := λ _ _, inr [Byte.x4a; Byte.x46];
     imdecode := λ content, Some content;
     load_weights := λ _ files, (inl (External 1), files);
     sql_fault := λ _, None;
     open_fault := λ _, None |}.

(** An outside world in which the third request of a run fails. *)
Definition third_request_fails : environment :=
  {| http_get := λ n _, if (n =? 2)%nat then inl (External 3) else inr [Byte.x4a; Byte.x46];
     imdecode := λ content, Some content;
     load_weights := λ _ files, (inr strict, files);
     sql_fault := λ _, None;
     open_fault := λ _, None |}.

(** An outside world in which the engine rejects the second statement. *)
Definition second_statement_fails : environment :=
  {| http_get := λ _ _, inr [Byte.x4a; Byte.x46];
     imdecode := λ content, Some content;
     load_weights := λ _ files, (inr strict, files);
     sql_fault := λ n, if (n =? 1)%nat then Some (External 5) else None;
     open_fault := λ _, None |}.

(** A database with an empty table and an open connection on it. *)
Definition ready : world :=
  {| fs := ∅; disk := {| table := Some []; sequence := 0 |};
     conn := {| pending := None; is_open := true |};
     requests := 0; statements := 0; trace := [] |}.

(** Two groups as the detector builds them: three triples in all. *)
Definition two_groups : list detection :=
  [ {| image := "a.jpg";
       boxes := [[120.5; 64; 40; 30; 0.87; 1]%Q; [10; 20; 5; 6; 0.5; 0]%Q];
       labels := ["cream jar"; "lotion"];
       confidences := [0.87; 0.5]%Q |};
    {| image := "b.jpg";
       boxes := [[1; 2; 3; 4; 0.25; 0]%Q];
       labels := ["lotion"];
       confidences := [0.25]%Q |} ].

(** A group whose arrays disagree: three boxes, two labels, one confidence. *)
Definition ragged_groups : list detection :=
  [ {| image := "c.jpg";
       boxes := [[1; 2; 3; 4]%Q; [5; 6; 7; 8]%Q; [9]%Q];
       labels := ["lotion"; "cream jar"];
       confidences := [0.75]%Q |} ].

(** A directory [images] holding two files. *)
Definition two_images : world :=
  set_fs (<["images/x.jpg" := File [Byte.x01]]>
            (<["images/y.jpg" := File [Byte.x02]]> (<["images" := Dir]> ∅))) fresh.

(** ** What the detector hands to the store *)

(** A matrix row the detector can read: it has its six entries and its
    class index falls inside the table of names (negative indices count
    from the end). *)
Definition readable (names : list string) (r : list Q) : Prop :=
  ∃ c, r !! 5 = Some c
       ∧ (- Z.of_nat (length names) ≤ astype_int c < Z.of_nat (length names))%Z.

(** The row stored for one row of the capability's matrix. *)
Definition stored_fields (name : string) (names : list string) (r : list Q) : row :=
  {| image_name := name;
     label := default "" (r !! 5 ≫= λ c, index_name names (astype_int c));
     confidence := default 0%Q (r !! 4);
     x_center := default 0%Q (r !! 0);
     y_center := default 0%Q (r !! 1);
     width := default 0%Q (r !! 2);
     height := default 0%Q (r !! 3) |}.

(** No component separator in a file name. *)
Fixpoint no_slash (s : string) : bool :=
  match s with
  | EmptyString => true
  | String c rest => negb (Ascii.eqb c "/"%char) && no_slash rest
  end.

(** ** More sample inputs *)

(** An open connection on a database without the table. *)
Definition no_table : world :=
  {| fs := ∅; disk := empty_db; conn := {| pending := None; is_open := true |};
     requests := 0; statements := 0; trace := [] |}.

(** A group whose second box has a single component. *)
Definition short_box_groups : list detection :=
  [ {| image := "s.jpg";
       boxes := [[1; 2; 3; 4]%Q; [9]%Q];
       labels := ["lotion"; "lotion"];
       confidences := [0.5; 0.5]%Q |} ].

(** The group of an image in which nothing was detected. *)
Definition nothing_detected : list detection :=
  [ {| image := "n.jpg"; boxes := []; labels := []; confidences := [] |} ].

(** An outside world in which the engine rejects every statement. *)
Definition engine_down : environment :=
  {| http_get := λ _ _, inr [Byte.x4a; Byte.x46];
     imdecode := λ content, Some content;
     load_weights := λ _ files, (inr strict, files);
     sql_fault := λ _, Some (External 9);
     open_fault := λ _, None |}.

(** A file system in which [images] is a regular file. *)
Definition blocked : world := set_fs (<["images" := File []]> ∅) fresh.

(** The answer of [strict] for an image. *)
Definition one_jar : results :=
  {| xywh := [{| columns := 6; entries := [[120.5; 64; 40; 30; 0.87; 1]%Q] |}];
     names := ["lotion"; "cream jar"] |}.

(** The group [strict] yields for an image. *)
Definition jar_group (name : string) : detection :=
  {| image := name;
     boxes := [[120.5; 64; 40; 30; 0.87; 1]%Q];
     labels := ["cream jar"];
     confidences := [0.87]%Q |}.

(** * Properties *)

(** ** Running the monad *)

Lemma bind_run {A B} (m : M A) (k : A → M B) w :
  (m ≫= k) w =
  match m w with
  | (Return a, w1) => k a w1
  | (Raise e, w1) => (Raise e, w1)
  end.
Proof. reflexivity. Qed.

Lemma for_each_app {A} (xs ys : list A) (body : A → M unit) w :
  for_each (xs ++ ys) body w = (for_each xs body;; for_each ys body) w.
Proof.
  revert w. induction xs as [|x xs IH]; intros w; [done|].
  cbn [for_each app]. rewrite !bind_run.
  destruct (body x w) as [[[]|e] w1]; [|done].
  rewrite IH. by rewrite bind_run.
Qed.

Lemma for_each_fmap {A B} (f : A → B) (xs : list A) (body : B → M unit) w :
  for_each (f <$> xs) body w = for_each xs (body ∘ f) w.
Proof.
  revert w. induction xs as [|x xs IH]; intros w; [done|].
  cbn [for_each fmap list_fmap]. rewrite !bind_run. cbn [compose].
  destruct (body (f x) w) as [[[]|e] w1]; [apply IH|done].
Qed.

Lemma for_each_ext {A} (xs : list A) (f g : A → M unit) :
  (∀ x w, f x w = g x w) → ∀ w, for_each xs f w = for_each xs g w.
Proof.
  intros Hfg. induction xs as [|x xs IH]; intros w; [done|].
  cbn [for_each]. rewrite !bind_run, Hfg.
  destruct (g x w) as [[[]|e] w1]; [apply IH|done].
Qed.


Section Store.

Context (E : environment).


Lemma store_inner_flat (d : detection) w :
  for_each (zip3 (boxes d) (labels d) (confidences d)) (λ '(box, lbl, conf),
    '(x, y, w, h) ← unpack4 box;
    connection_execute E
      (Insert {| image_name := image d; label := lbl; confidence := conf;
                 x_center := x; y_center := y; width := w; height := h |})) w
  = for_each (row_of (image d) <$> zip3 (boxes d) (labels d) (confidences d))
      (insert_attempt E) w.
Proof.
  rewrite for_each_fmap. apply for_each_ext.
  intros [[box lbl] conf] w0. unfold compose, row_of, unpack4. cbn [fst snd].
  rewrite bind_run.
  destruct (take 4 box) as [|x [|y [|wd [|h [|? ?]]]]]; reflexivity.
Qed.

Lemma store_loops_flat (ds : list detection) w :
  for_each ds (λ d,
    for_each (zip3 (boxes d) (labels d) (confidences d)) (λ '(box, lbl, conf),
      '(x, y, w, h) ← unpack4 box;
      connection_execute E
        (Insert {| image_name := image d; label := lbl; confidence := conf;
                   x_center := x; y_center := y; width := w; height := h |}))) w
  = for_each (attempts ds) (insert_attempt E) w.
Proof.
  revert w. induction ds as [|d ds IH]; intros w; [done|].
  cbn [for_each]. unfold attempts. cbn [mbind list_bind]. fold (attempts ds).
  rewrite for_each_app, !bind_run, store_inner_flat.
  destruct (for_each _ _ w) as [[[]|e] w1]; [apply IH|done].
Qed.

(** The ids [add_rows] hands out continue the AUTOINCREMENT sequence. *)
Lemma add_rows_cons r rs d :
  add_rows (r :: rs) d = add_rows rs (append_row r (db_rows d) d).
Proof. reflexivity. Qed.

Lemma db_rows_add_rows rs d :
  db_rows (add_rows rs d) = db_rows d ++ zip (seq (S (sequence d)) (length rs)) rs.
Proof.
  revert d. induction rs as [|r rs IH]; intros d.
  - by rewrite app_nil_r.
  - rewrite add_rows_cons, IH. cbn. by rewrite <- app_assoc.
Qed.

Lemma table_add_rows rs d :
  is_Some (table d) → table (add_rows rs d) = Some (db_rows (add_rows rs d)).
Proof.
  revert d. induction rs as [|r rs IH]; intros d [rows Hrows].
  - cbn. unfold db_rows. by rewrite Hrows.
  - rewrite add_rows_cons. apply IH. by eexists.
Qed.

(** What one run of the insert loop does, whatever its outcome: [done] are
    the rows inserted, [attempted] the rows for which a statement was
    issued (one more than [done] when the last statement failed). *)
Lemma insert_loop_spec (rs : list (option row)) w r w' :
  for_each rs (insert_attempt E) w = (r, w') →
  ∃ done attempted : list row,
    trace w' = trace w ++ (EvExecute ∘ Insert <$> attempted)
    ∧ done `prefix_of` attempted
    ∧ length attempted ≤ S (length done)
    ∧ (Some <$> attempted) `prefix_of` rs
    ∧ fs w' = fs w ∧ disk w' = disk w ∧ requests w' = requests w
    ∧ is_open (conn w') = is_open (conn w)
    ∧ view w' = add_rows done (view w)
    ∧ match r with
      | Return _ => rs = Some <$> done ∧ attempted = done
      | Raise _ => length done < length rs
      end.
Proof.
  revert w. induction rs as [|o rs IH]; intros w Hrun.
  { injection Hrun as <- <-. exists [], []. cbn. rewrite app_nil_r.
    repeat split; auto. }
  cbn [for_each] in Hrun. rewrite bind_run in Hrun.
  destruct o as [r0|]; cbn [insert_attempt] in Hrun.
  - unfold connection_execute in Hrun. cbn in Hrun.
    destruct (is_open (conn w)) eqn:Hopen; cbn in Hrun.
    + change (view (next_statement (emit (EvExecute (Insert r0)) w))) with (view w) in Hrun.
      destruct (table (view w)) as [rows|] eqn:Htable.
      * destruct (sql_fault E (statements w)) as [e|]; cbn in Hrun.
        -- injection Hrun as <- <-. exists [], [r0]. cbn.
           repeat split; auto using prefix_nil, prefix_cons, prefix_nil with lia.
        -- apply IH in Hrun as (done & att & Htr & Hpre & Hlen & Hrs & ? & ? & ? & Hop & Hview & Hr).
           exists (r0 :: done), (r0 :: att). cbn in *.
           rewrite Htr, <- app_assoc. rewrite Hop, Hview.
           repeat split; auto using prefix_cons with lia.
           ++ replace (db_rows (view w)) with rows; [done|].
              unfold db_rows. by rewrite Htable.
           ++ destruct r; [destruct Hr as [-> ->]; done|lia].
      * injection Hrun as <- <-. exists [], [r0]. cbn.
        repeat split; auto using prefix_nil, prefix_cons, prefix_nil with lia.
    + injection Hrun as <- <-. exists [], [r0]. cbn.
      repeat split; auto using prefix_nil, prefix_cons, prefix_nil with lia.
  - injection Hrun as <- <-. exists [], []. cbn. rewrite app_nil_r.
    repeat split; auto using prefix_nil with lia.
Qed.

(** With the connection open, the table present and an engine that
    rejects none of the statements, every row goes in. *)
Lemma insert_loop_ok (rows : list row) w :
  is_open (conn w) = true →
  is_Some (table (view w)) →
  (∀ j, j < length rows → sql_fault E (statements w + j) = None) →
  ∃ w', for_each (Some <$> rows) (insert_attempt E) w = (Return (), w')
        ∧ is_open (conn w') = true.
Proof.
  revert w. induction rows as [|r0 rows IH]; intros w Hopen [old Hold] Hok.
  { by exists w. }
  cbn [fmap list_fmap for_each insert_attempt]. rewrite bind_run.
  unfold connection_execute. cbn. rewrite Hopen. cbn.
  change (view (next_statement (emit (EvExecute (Insert r0)) w))) with (view w).
  rewrite Hold. specialize (Hok 0 ltac:(cbn; lia)) as H0.
  rewrite Nat.add_0_r in H0. rewrite H0.
  apply IH; [done|by eexists|].
  intros j Hj. cbn. rewrite <- Nat.add_succ_r. apply Hok. cbn. lia.
Qed.


(** [store_detection_results] with its [try] and [with] unfolded. *)
Lemma store_run (ds : list detection) w :
  store_detection_results E ds w =
  match for_each (attempts ds) (insert_attempt E) w with
  | (Return _, w1) =>
      match connection_commit w1 with
      | (Return _, w2) => (Return (), emit (stored (length ds)) w2)
      | (Raise e, w2) => (Raise e, emit (storing_failed e) w2)
      end
  | (Raise e, w1) =>
      match connection_rollback w1 with
      | (Return _, w2) => (Raise e, emit (storing_failed e) w2)
      | (Raise e', w2) => (Raise e', emit (storing_failed e') w2)
      end
  end.
Proof.
  unfold store_detection_results, try_log. rewrite bind_run.
  unfold with_connection. rewrite store_loops_flat.
  destruct (for_each _ _ w) as [[[]|e] w1].
  - by destruct (connection_commit w1) as [[[]|e] w2].
  - by destruct (connection_rollback w1) as [[[]|e'] w2].
Qed.

Lemma zip3_rows name (bs : list (list Q)) (ls : list string) (cs : list Q) :
  Forall (λ box, 4 ≤ length box) (take (length ls `min` length cs) bs) →
  row_of name <$> zip3 bs ls cs =
  Some <$> (triple_row name bs ls cs
              <$> seq 0 (length bs `min` (length ls `min` length cs))).
Proof.
  revert ls cs. induction bs as [|b bs IH]; intros [|l ls] [|c cs] Hbox; try done.
  cbn [length Nat.min take] in Hbox. apply Forall_cons in Hbox as [Hb Hbs].
  cbn [zip3 length Nat.min seq fmap list_fmap]. f_equal.
  - do 4 (destruct b as [|? b]; [cbn in Hb; lia|]). done.
  - rewrite IH by done. rewrite <- fmap_S_seq, <- !list_fmap_compose. done.
Qed.

Lemma attempts_rows (ds : list detection) :
  Forall (λ d, Forall (λ box, 4 ≤ length box)
                 (take (length (labels d) `min` length (confidences d)) (boxes d))) ds →
  attempts ds = Some <$> (d ← ds; row_at d <$> seq 0 (min3 d)).
Proof.
  induction 1 as [|d ds Hd _ IH]; [done|].
  unfold attempts. cbn [mbind list_bind]. fold (attempts ds).
  rewrite fmap_app, IH. f_equal. by apply zip3_rows.
Qed.

Lemma aligned_rows (ds : list detection) :
  Forall aligned ds →
  attempts ds = Some <$> (d ← ds; row_at d <$> seq 0 (length (boxes d)))
  ∧ length (d ← ds; row_at d <$> seq 0 (length (boxes d))) = triples ds.
Proof.
  intros Hds. split.
  - rewrite attempts_rows.
    + f_equal. induction Hds as [|d ds (Hl & Hc & _) _ IH]; [done|].
      cbn [mbind list_bind]. rewrite IH. unfold min3. rewrite Hl, Hc.
      by rewrite !Nat.min_id.
    + eapply Forall_impl; [done|]. intros d (_ & _ & Hb).
      apply Forall_take. done.
  - unfold triples. induction ds as [|d ds IH]; [done|].
    apply Forall_cons in Hds as [_ Hds]. cbn [mbind list_bind fmap list_fmap sum_list].
    rewrite length_app, length_fmap, length_seq, <- IH by done. done.
Qed.

Lemma executed_inserts (rows : list row) (e1 e2 : event) :
  (∀ s, e1 ≠ EvExecute s) → (∀ s, e2 ≠ EvExecute s) →
  executed ((EvExecute ∘ Insert <$> rows) ++ [e1; e2]) = Insert <$> rows.
Proof.
  intros H1 H2. unfold executed. rewrite omap_app.
  replace (omap _ [e1; e2]) with (@nil statement).
  - rewrite app_nil_r. induction rows as [|x l IH]; [done|]. cbn. by rewrite IH.
  - cbn. destruct e1; [..|by destruct (H1 s)|idtac|idtac|idtac|idtac];
      (destruct e2; try done; by destruct (H2 s)).
Qed.

(** A call that meets no obstacle commits every row of its groups. *)
Lemma store_all_rows (ds : list detection) (rows : list row) w :
  attempts ds = Some <$> rows →
  is_open (conn w) = true →
  is_Some (table (view w)) →
  (∀ j, j < length rows → sql_fault E (statements w + j) = None) →
  ∃ w', store_detection_results E ds w = (Return (), w')
        ∧ trace w' = trace w ++ (EvExecute ∘ Insert <$> rows)
                       ++ [EvCommit; stored (length ds)]
        ∧ disk w' = add_rows rows (view w)
        ∧ pending (conn w') = None.
Proof.
  intros Hrows Hopen Htable Hok.
  destruct (insert_loop_ok rows w Hopen Htable Hok) as (w1 & Hrun & Hopen1).
  rewrite store_run, Hrows, Hrun.
  apply insert_loop_spec in Hrun as (done & att & Htr & _ & _ & _ & _ & _ & _ & _ & Hview & Heq & ->).
  apply (inj (fmap Some)) in Heq as <-.
  unfold connection_commit. cbn. rewrite Hopen1. cbn.
  eexists. split; [done|]. cbn. rewrite Htr, <- !app_assoc.
  repeat split. by rewrite <- Hview.
Qed.

(** One call of [store_detection_results], whatever its outcome. *)
Lemma store_spec (ds : list detection) w r w' :
  store_detection_results E ds w = (r, w') →
  fs w' = fs w ∧ is_open (conn w') = is_open (conn w) ∧
  ∃ (attempted : list row) (fin : event) (l : log_record),
    trace w' = trace w ++ (EvExecute ∘ Insert <$> attempted) ++ [fin; EvLog l]
    ∧ (Some <$> attempted) `prefix_of` attempts ds
    ∧ (fin = EvCommit ∨ fin = EvRollback)
    ∧ match r with
      | Return _ =>
          attempts ds = Some <$> attempted
          ∧ fin = EvCommit
          ∧ pending (conn w') = None
          ∧ disk w' = add_rows attempted (view w)
          ∧ db_rows (disk w') =
              db_rows (view w)
              ++ zip (seq (S (sequence (view w))) (length attempted)) attempted
      | Raise e =>
          disk w' = disk w
          ∧ l = Error "Error storing detection results" e
          ∧ (is_open (conn w) = true → fin = EvRollback ∧ pending (conn w') = None)
      end.
Proof.
  rewrite store_run. intros Hrun.
  destruct (for_each _ _ w) as [[[]|e] w1] eqn:Hloop;
    apply insert_loop_spec in Hloop
      as (done & att & Htr & Hpre & Hlen & Hrs & Hfs & Hdisk & _ & Hop & Hview & Hr).
  - destruct Hr as [Hall ->]. unfold connection_commit in Hrun. cbn in Hrun.
    destruct (is_open (conn w1)) eqn:Hopen1; cbn in Hrun; injection Hrun as <- <-.
    + split; [done|]. split; [by rewrite <- Hop|].
      exists done, EvCommit, (Info (str (length ds) +:+ " detection results stored in database.")).
      cbn. rewrite Htr, <- !app_assoc. repeat split; auto.
      rewrite <- db_rows_add_rows, <- Hview. done.
    + split; [done|]. split; [by rewrite <- Hop|].
      exists done, EvCommit, (Error "Error storing detection results" ProgrammingError).
      cbn. rewrite Htr, <- !app_assoc. repeat split; auto. all: congruence.
  - unfold connection_rollback in Hrun. cbn in Hrun.
    destruct (is_open (conn w1)) eqn:Hopen1; cbn in Hrun; injection Hrun as <- <-.
    + split; [done|]. split; [by rewrite <- Hop|].
      exists att, EvRollback, (Error "Error storing detection results" e).
      cbn. rewrite Htr, <- !app_assoc. repeat split; auto.
    + split; [done|]. split; [by rewrite <- Hop|].
      exists att, EvRollback, (Error "Error storing detection results" ProgrammingError).
      cbn. rewrite Htr, <- !app_assoc. repeat split; auto. all: congruence.
Qed.

(** The loop of inserts on an open connection whose table exists: it runs
    to its end unless it meets an obstacle, and then raises that very
    exception. *)
Lemma insert_loop_outcome (rs : list (option row)) w :
  is_open (conn w) = true →
  is_Some (table (view w)) →
  ∃ w1,
    for_each rs (insert_attempt E) w
    = (match first_obstacle E (statements w) rs with
       | Some e => Raise e
       | None => Return ()
       end, w1)
    ∧ is_open (conn w1) = true.
Proof.
  revert w. induction rs as [|[r0|] rs IH]; intros w Hopen [old Hold].
  - by exists w.
  - cbn [for_each insert_attempt first_obstacle]. rewrite bind_run.
    unfold connection_execute. cbn. rewrite Hopen. cbn.
    change (view (next_statement (emit (EvExecute (Insert r0)) w))) with (view w).
    rewrite Hold. destruct (sql_fault E (statements w)) as [e|]; [by eexists|].
    apply IH; [done|by eexists].
  - cbn [for_each insert_attempt first_obstacle]. rewrite bind_run. by eexists.
Qed.

(** C1, as amended.  Every insertion of a call to [store_detection_results]
    lies in the one [with connection] block of the call, which ends on a
    single commit or a single rollback.  When the call returns, every
    record of the call is committed; when anything in the block raises
    (and so when any single insert fails), the block rolls back, the
    committed database is the one from before the call, and the exception
    is logged as the storing error and raised again.  The statements
    issued are a prefix of the call's records, each issued once: nothing
    is retried.  (The empty list is covered as well.)  On an open
    connection whose table exists the call returns, all committed, exactly
    when no insert meets an obstacle; otherwise what it raises is the
    exception of the first obstacle, as it is: the engine's own error, or
    the ValueError of the unpacking, and no error type of the store's. *)
Theorem store_detection_results_atomic (ds : list detection) w r w' :
  store_detection_results E ds w = (r, w') →
  (∃ (attempted : list row) (fin : event) (l : log_record),
     trace w' = trace w ++ (EvExecute ∘ Insert <$> attempted) ++ [fin; EvLog l]
     ∧ (Some <$> attempted) `prefix_of` attempts ds
     ∧ (fin = EvCommit ∨ fin = EvRollback)
     ∧ match r with
       | Return _ =>
           attempts ds = Some <$> attempted
           ∧ fin = EvCommit
           ∧ pending (conn w') = None
           ∧ disk w' = add_rows attempted (view w)
           ∧ db_rows (disk w') =
               db_rows (view w)
               ++ zip (seq (S (sequence (view w))) (length attempted)) attempted
       | Raise e =>
           disk w' = disk w
           ∧ l = Error "Error storing detection results" e
           ∧ (is_open (conn w) = true → fin = EvRollback ∧ pending (conn w') = None)
       end)
  ∧ (is_open (conn w) = true → is_Some (table (view w)) →
     r = match first_obstacle E (statements w) (attempts ds) with
         | Some e => Raise e
         | None => Return ()
         end).
Proof.
  intros Hrun. split.
  { by apply store_spec in Hrun as (_ & _ & Hrun). }
  intros Hopen Htable. rewrite store_run in Hrun.
  destruct (insert_loop_outcome (attempts ds) w Hopen Htable) as (w1 & Hloop & Hopen1).
  rewrite Hloop in Hrun. unfold connection_commit, connection_rollback in Hrun.
  cbn in Hrun. rewrite Hopen1 in Hrun. cbn in Hrun.
  destruct (first_obstacle E (statements w) (attempts ds)); by injection Hrun as <- _.
Qed.

(** C2.  When every group has its three arrays of one length and boxes of
    at least four components, and the database takes the statements (the
    connection is open, the table exists, the engine rejects none of the
    [k] inserts), [store_detection_results] returns and has inserted
    exactly [k] rows, [k] being the number of triples of the groups: the
    rows the connection sees after the call are the rows it saw before
    followed by one seven-field row per triple, all of them committed. *)
Theorem store_detection_results_inserts_all (ds : list detection) w :
  Forall aligned ds →
  is_open (conn w) = true →
  is_Some (table (view w)) →
  (∀ j, j < triples ds → sql_fault E (statements w + j) = None) →
  ∃ w' (ids : list nat),
    store_detection_results E ds w = (Return (), w')
    ∧ executed (drop (length (trace w)) (trace w'))
      = Insert <$> (d ← ds; row_at d <$> seq 0 (length (boxes d)))
    ∧ db_rows (disk w') =
        db_rows (view w) ++ zip ids (d ← ds; row_at d <$> seq 0 (length (boxes d)))
    ∧ length ids = triples ds
    ∧ view w' = disk w'
    ∧ length (db_rows (view w')) = length (db_rows (view w)) + triples ds.
Proof.
  intros Hds Hopen Htable Hok.
  destruct (aligned_rows ds Hds) as [Hrows Hlen].
  destruct (store_all_rows ds _ w Hrows Hopen Htable) as (w' & Hrun & Htr & Hdisk & Hpend).
  { by rewrite Hlen. }
  assert (Hview : view w' = disk w') by (unfold view; by rewrite Hpend).
  exists w', (seq (S (sequence (view w))) (triples ds)).
  split; [done|]. split; [|split; [|split; [|split]]].
  - rewrite Htr, drop_app_length. by apply executed_inserts.
  - by rewrite Hdisk, db_rows_add_rows, Hlen.
  - apply length_seq.
  - done.
  - rewrite Hview, Hdisk, db_rows_add_rows, length_app, length_zip, length_seq, Hlen. lia.
Qed.

(** C10.  Arrays of unequal length are no error by themselves: of each
    group only the first [m] positions are stored, [m] being the length of
    the shortest array, and row [j] is made of box [j], label [j] and
    confidence [j].  (The boxes at those positions must have their four
    components and the database must take the statements, as for any other
    call.) *)
Theorem store_detection_results_truncates (ds : list detection) w :
  Forall (λ d, Forall (λ box, 4 ≤ length box) (take (min3 d) (boxes d))) ds →
  is_open (conn w) = true →
  is_Some (table (view w)) →
  (∀ j, j < sum_list (min3 <$> ds) → sql_fault E (statements w + j) = None) →
  ∃ w' (ids : list nat),
    store_detection_results E ds w = (Return (), w')
    ∧ executed (drop (length (trace w)) (trace w'))
      = Insert <$> (d ← ds; row_at d <$> seq 0 (min3 d))
    ∧ db_rows (disk w') =
        db_rows (view w) ++ zip ids (d ← ds; row_at d <$> seq 0 (min3 d))
    ∧ length ids = sum_list (min3 <$> ds)
    ∧ length (db_rows (disk w')) = length (db_rows (view w)) + sum_list (min3 <$> ds).
Proof.
  intros Hds Hopen Htable Hok.
  assert (Hlen : length (d ← ds; row_at d <$> seq 0 (min3 d)) = sum_list (min3 <$> ds)).
  { clear. induction ds as [|d ds IH]; [done|].
    cbn [mbind list_bind fmap list_fmap sum_list].
    by rewrite length_app, length_fmap, length_seq, <- IH. }
  assert (Hrows : attempts ds = Some <$> (d ← ds; row_at d <$> seq 0 (min3 d))).
  { apply attempts_rows. eapply Forall_impl; [done|]. intros d Hd.
    apply Forall_forall. intros box Hbox. rewrite Forall_forall in Hd. apply Hd.
    apply list_elem_of_lookup in Hbox as [i Hi].
    apply lookup_take_Some in Hi as [Hi Hlt].
    apply list_elem_of_lookup. exists i. apply lookup_take_Some.
    split; [done|]. unfold min3.
    apply lookup_lt_Some in Hi. lia. }
  destruct (store_all_rows ds _ w Hrows Hopen Htable) as (w' & Hrun & Htr & Hdisk & Hpend).
  { by rewrite Hlen. }
  exists w', (seq (S (sequence (view w))) (sum_list (min3 <$> ds))).
  split; [done|]. split; [|split; [|split]].
  - rewrite Htr, drop_app_length. by apply executed_inserts.
  - by rewrite Hdisk, db_rows_add_rows, Hlen.
  - apply length_seq.
  - rewrite Hdisk, db_rows_add_rows, length_app, length_zip, length_seq, Hlen. lia.
Qed.

End Store.

(** ** The detector *)

Section Detector.

Context (E : environment) (m : model).

Lemma emits_frame evs w :
  fs (emits evs w) = fs w ∧ disk (emits evs w) = disk w
  ∧ conn (emits evs w) = conn w ∧ requests (emits evs w) = requests w
  ∧ statements (emits evs w) = statements w
  ∧ trace (emits evs w) = trace w ++ evs.
Proof.
  revert w. induction evs as [|ev evs IH]; intros w.
  - cbn. by rewrite app_nil_r.
  - change (emits (ev :: evs) w) with (emits evs (emit ev w)).
    destruct (IH (emit ev w)) as (-> & -> & -> & -> & -> & ->).
    cbn. by rewrite <- app_assoc.
Qed.

Lemma detect_one_run p w :
  detect_one E m p w =
  match analyse E m (fs w) p with
  | inr d =>
      (Return d,
       emits [EvImread p; EvInfer (imread E (fs w) p);
              EvLog (Info ("Detected objects in " +:+ path_name p))] w)
  | inl e => (Raise e, emits [EvImread p; EvInfer (imread E (fs w) p)] w)
  end.
Proof.
  unfold detect_one, analyse. rewrite bind_run. unfold cv2_imread.
  rewrite bind_run. unfold call_model.
  destruct (m (imread E (fs w) p)) as [e|res]; [done|]. rewrite bind_run.
  destruct (detection_of (path_name p) res); done.
Qed.

Lemma emits_app evs1 evs2 w : emits (evs1 ++ evs2) w = emits evs2 (emits evs1 w).
Proof. apply foldl_app. Qed.

Lemma reads_app evs1 evs2 : reads (evs1 ++ evs2) = reads evs1 ++ reads evs2.
Proof. apply omap_app. Qed.

(** One run of the loop over [paths], whatever its outcome. *)
Lemma detect_loop_spec (paths : list string) w r w' :
  collect paths (detect_one E m) w = (r, w') →
  ∃ evs,
    w' = emits evs w
    ∧ Forall (at_stage Detecting) evs
    ∧ match r with
      | Return ds =>
          Forall2 (λ p d, analyse E m (fs w) p = inr d) paths ds
          ∧ reads evs = paths
      | Raise e =>
          ∃ pre q post,
            paths = pre ++ q :: post
            ∧ Forall (λ p, ∃ d, analyse E m (fs w) p = inr d) pre
            ∧ analyse E m (fs w) q = inl e
            ∧ reads evs = pre ++ [q]
      end.
Proof.
  revert w r w'. induction paths as [|p paths IH]; intros w r w' Hrun.
  { injection Hrun as <- <-. exists [].
    split; [done|]. split; [constructor|]. split; [constructor|done]. }
  cbn [collect] in Hrun. rewrite bind_run, detect_one_run in Hrun.
  destruct (analyse E m (fs w) p) as [e|d] eqn:Hp.
  - injection Hrun as <- <-. exists [EvImread p; EvInfer (imread E (fs w) p)].
    split; [done|]. split.
    + repeat constructor.
    + exists [], p, paths. by repeat split.
  - rewrite bind_run in Hrun.
    destruct (collect paths _ _) as [[ds|e] w1] eqn:Hrest;
      apply IH in Hrest as (evs & -> & Hst & Hr); injection Hrun as <- <-.
    + destruct Hr as [Hds Hreads]. exists (EvImread p :: EvInfer (imread E (fs w) p)
              :: EvLog (Info ("Detected objects in " +:+ path_name p)) :: evs).
      split; [done|]. split; [by repeat constructor|].
      split; [by constructor|]. cbn. by rewrite <- Hreads.
    + destruct Hr as (pre & q & post & -> & Hpre & Hq & Hreads).
      exists (EvImread p :: EvInfer (imread E (fs w) p)
              :: EvLog (Info ("Detected objects in " +:+ path_name p)) :: evs).
      split; [done|]. split; [by repeat constructor|].
      exists (p :: pre), q, post. repeat split; [by constructor; eauto|done|].
      cbn. by rewrite <- Hreads.
Qed.

Lemma detect_run dir w :
  detect_objects_in_images E m dir w =
  match collect (glob_jpg dir (fs w)) (detect_one E m) (emit (EvGlob dir) w) with
  | (Return ds, w1) => (Return ds, w1)
  | (Raise e, w1) => (Raise e, emit (detecting_failed e) w1)
  end.
Proof. reflexivity. Qed.

Lemma detection_of_image name res d : detection_of name res = Some d → image d = name.
Proof. unfold detection_of. intros. by simplify_option_eq. Qed.

Lemma analyse_image files p d : analyse E m files p = inr d → image d = path_name p.
Proof.
  unfold analyse. destruct (m _) as [|res]; [done|].
  destruct (detection_of _ res) eqn:Hd; [|done].
  intros [= <-]. by eapply detection_of_image.
Qed.

Lemma analyse_images files ps ds :
  Forall2 (λ p d, analyse E m files p = inr d) ps ds →
  image <$> ds = path_name <$> ps.
Proof.
  induction 1 as [|p d ps ds Hp _ IH]; [done|].
  cbn. rewrite IH. f_equal. by eapply analyse_image.
Qed.

(** Two spellings of one directory list the same entries. *)
Lemma glob_jpg_spelling dir dir' files :
  resolve dir = resolve dir' → glob_jpg dir files = glob_jpg dir' files.
Proof. unfold glob_jpg. by intros ->. Qed.



(** C9, as amended.  [cv2.imread] raises nothing for a file it cannot
    decode: it returns [None], and the loop hands that to the capability.
    When the capability raises on it, the detector aborts the batch: the
    call raises (at that file or at an earlier one whose processing
    raised), the exception is logged as the detection error, no group is
    returned, and no file listed after the failing one is read. *)
Theorem detect_objects_in_images_aborts dir w p e :
  p ∈ glob_jpg dir (fs w) →
  imread E (fs w) p = None →
  m None = inl e →
  ∃ e' w' pre q post,
    detect_objects_in_images E m dir w = (Raise e', w')
    ∧ glob_jpg dir (fs w) = pre ++ q :: post
    ∧ analyse E m (fs w) q = inl e'
    ∧ reads (drop (length (trace w)) (trace w')) = pre ++ [q]
    ∧ last (trace w') = Some (detecting_failed e').
Proof.
  intros Hp Himg Hm. rewrite detect_run.
  destruct (collect _ _ _) as [[ds|e'] w1] eqn:Hloop;
    apply detect_loop_spec in Hloop as (evs & -> & _ & Hr);
    change (fs (emit (EvGlob dir) w)) with (fs w) in Hr.
  - destruct Hr as [Hds _]. apply list_elem_of_lookup in Hp as [i Hi].
    destruct (Forall2_lookup_l _ _ _ _ _ Hds Hi) as (d & _ & Hd).
    unfold analyse in Hd. by rewrite Himg, Hm in Hd.
  - destruct Hr as (pre & q & post & Hpaths & _ & Hq & Hreads).
    exists e', (emit (detecting_failed e') (emits evs (emit (EvGlob dir) w))), pre, q, post.
    repeat split; try done.
    + cbn. destruct (emits_frame evs (emit (EvGlob dir) w)) as (_ & _ & _ & _ & _ & ->).
      cbn. rewrite <- !app_assoc, drop_app_length. cbn.
      by rewrite reads_app, Hreads, app_nil_r.
    + cbn. apply last_snoc.
Qed.

End Detector.

(** ** Paths *)


Lemma path_join_inj a b b' :
  starts_with "/" b = false → starts_with "/" b' = false →
  path_join a b = path_join a b' → b = b'.
Proof.
  unfold path_join. intros -> ->.
  destruct (_ || _); intros H; apply (inj (String.app a)) in H; [done|].
  by apply (inj (String.app "/")) in H.
Qed.


Lemma image_file_names :
  image_file <$> seq 0 5
  = ["image_0.jpg"; "image_1.jpg"; "image_2.jpg"; "image_3.jpg"; "image_4.jpg"].
Proof. reflexivity. Qed.

Lemma image_path_ne dir i j :
  i < 5 → j < 5 → i ≠ j → image_path dir i ≠ image_path dir j.
Proof.
  intros Hi Hj Hij H. apply path_join_inj in H; [|done..].
  do 5 (destruct i as [|i]; [do 5 (destruct j as [|j]; [done|]); lia|]). lia.
Qed.















Lemma makedirs_refusal_none dir files :
  makedirs_refusal dir files = None →
  dir ≠ "" ∧ (files !! dir = None ∨ files !! dir = Some Dir)
  ∧ (files !! dir = None → ∀ a, a ∈ ancestors dir → is_file files a = false).
Proof.
  unfold makedirs_refusal. destruct (String.eqb dir "") eqn:Hdir; [done|].
  apply String.eqb_neq in Hdir. destruct (files !! dir) as [[]|]; [done| |].
  - intros _. split_and!; [done|by right|done].
  - destruct (existsb _ _) eqn:Hex; [done|]. intros _. split_and!; [done|by left|].
    intros _ a Ha. destruct (is_file files a) eqn:Hfile; [|done].
    assert (existsb (is_file files) (ancestors dir) = true); [|congruence].
    apply existsb_exists. exists a. by rewrite <- list_elem_of_In.
Qed.

(** ** The image fetcher *)

Section Fetcher.

Context (E : environment) (url dir : string).

Lemma fetch_one_run i w :
  fetch_one E url dir i w =
  match http_get E (requests w) (image_url url i) with
  | inl e => (Raise e, emit (EvGet (image_url url i) (inl e)) (next_request w))
  | inr body =>
      let w1 := emits [EvGet (image_url url i) (inr body);
                       EvWrite (image_path dir i) body] (next_request w) in
      match fs w !! image_path dir i with
      | Some Dir => (Raise IsADirectoryError, w1)
      | _ =>
          (Return (),
           emit (EvLog (Info ("Image " +:+ str i +:+ " downloaded.")))
             (set_fs (<[image_path dir i := File body]> (fs w)) w1))
      end
  end.
Proof.
  unfold fetch_one. rewrite bind_run. unfold requests_get.
  destruct (http_get E (requests w) (image_url url i)) as [e|body]; [done|].
  rewrite bind_run. unfold write_file. cbn.
  by destruct (fs w !! image_path dir i) as [[]|].
Qed.

(** One run of the loop over images [a .. a+n-1], whatever its outcome. *)
Lemma fetch_loop_spec n a w r w' :
  for_each (seq a n) (fetch_one E url dir) w = (r, w') →
  ∃ bodies tail,
    trace w' = trace w ++ fetch_events url dir a bodies ++ tail
    ∧ fs w' = write_all dir a bodies (fs w)
    ∧ disk w' = disk w ∧ conn w' = conn w ∧ statements w' = statements w
    ∧ (∀ j body, bodies !! j = Some body →
         http_get E (requests w + j) (image_url url (a + j)) = inr body)
    ∧ match r with
      | Return _ => length bodies = n ∧ tail = []
      | Raise e => length bodies < n ∧ failed_turn url dir (a + length bodies) e tail
      end.
Proof.
  revert a w. induction n as [|n IH]; intros a w Hrun.
  { injection Hrun as <- <-. exists [], []. cbn. rewrite app_nil_r.
    split_and!; done. }
  cbn [seq for_each] in Hrun. rewrite bind_run, fetch_one_run in Hrun.
  destruct (http_get E (requests w) (image_url url a)) as [e|body] eqn:Hget.
  { injection Hrun as <- <-. exists [], [EvGet (image_url url a) (inl e)]. cbn.
    rewrite Nat.add_0_r. split_and!; try done; [apply Nat.lt_0_succ|by left]. }
  cbn zeta in Hrun.
  destruct (fs w !! image_path dir a) as [[content|]|] eqn:Hpath.
  2:{ injection Hrun as <- <-.
      exists [], [EvGet (image_url url a) (inr body); EvWrite (image_path dir a) body].
      cbn. rewrite Nat.add_0_r. split_and!; try done;
        [by rewrite <- app_assoc|apply Nat.lt_0_succ|right; by exists body]. }
  all: apply IH in Hrun as (bodies & tail & Htr & Hfs & Hdisk & Hconn & Hst & Hget' & Hr);
    exists (body :: bodies), tail; cbn in *;
    rewrite Htr, <- !app_assoc; (split; [done|]); (split; [done|]);
    (split; [done|]); (split; [done|]); (split; [done|]); split.
  all: try (intros [|j] b Hj; cbn in Hj;
            [rewrite !Nat.add_0_r; congruence
            |rewrite <- !Nat.add_succ_comm; by apply Hget']).
  all: destruct r; [destruct Hr as [<- ->]; done|].
  all: rewrite <- Nat.add_succ_comm; split; [lia|apply Hr].
Qed.

Lemma requested_fetch_events a bodies :
  requested (fetch_events url dir a bodies) = image_url url <$> seq a (length bodies).
Proof. revert a. induction bodies as [|b bodies IH]; intros a; [done|]. cbn. by rewrite IH. Qed.

Lemma written_fetch_events a bodies :
  written (fetch_events url dir a bodies) = image_path dir <$> seq a (length bodies).
Proof. revert a. induction bodies as [|b bodies IH]; intros a; [done|]. cbn. by rewrite IH. Qed.

Lemma requested_app evs1 evs2 : requested (evs1 ++ evs2) = requested evs1 ++ requested evs2.
Proof. apply omap_app. Qed.

Lemma written_app evs1 evs2 : written (evs1 ++ evs2) = written evs1 ++ written evs2.
Proof. apply omap_app. Qed.

Lemma fetch_events_stage a bodies :
  Forall (at_stage Fetching) (fetch_events url dir a bodies).
Proof.
  revert a. induction bodies as [|b bodies IH]; intros a; [constructor|].
  cbn. by repeat constructor.
Qed.

Lemma fetch_events_answers a bodies u e :
  EvGet u (inl e) ∉ fetch_events url dir a bodies.
Proof.
  revert a. induction bodies as [|b bodies IH]; intros a; [apply not_elem_of_nil|].
  cbn. rewrite !not_elem_of_cons. split_and!; try done.
Qed.

Lemma download_run w :
  download_images_from_telegram E url dir w =
  match os_makedirs dir w with
  | (Return _, w1) =>
      match for_each (seq 0 5) (fetch_one E url dir) w1 with
      | (Return _, w2) => (Return (), w2)
      | (Raise e, w2) => (Raise e, emit (downloading_failed e) w2)
      end
  | (Raise e, w1) => (Raise e, emit (downloading_failed e) w1)
  end.
Proof.
  unfold download_images_from_telegram, try_log. rewrite bind_run.
  destruct (os_makedirs dir w) as [[[]|e] w1]; [|done].
  change (for_each (seq 0 5) _ w1) with (for_each (seq 0 5) (fetch_one E url dir) w1).
  by destruct (for_each _ _ w1) as [[[]|e] w2].
Qed.

Lemma os_makedirs_run w :
  os_makedirs dir w =
  match makedirs_refusal dir (fs w) with
  | Some e => (Raise e, emit (EvMakedirs dir) w)
  | None => (Return (), set_fs (with_dir dir (fs w)) (emit (EvMakedirs dir) w))
  end.
Proof.
  unfold os_makedirs, makedirs_refusal, with_dir. cbn.
  destruct (String.eqb dir ""); [done|].
  destruct (fs w !! dir) as [[]|]; [done..|]. by destruct (existsb _ _).
Qed.

(** One call of the fetcher, whatever its outcome. *)
Lemma download_spec w r w' :
  download_images_from_telegram E url dir w = (r, w') →
  disk w' = disk w ∧ conn w' = conn w ∧ statements w' = statements w
  ∧ ∃ evs,
      trace w' = trace w ++ EvMakedirs dir :: evs
      ∧ Forall (at_stage Fetching) evs
      ∧ match r with
        | Return _ =>
            ∃ bodies,
              length bodies = 5
              ∧ evs = fetch_events url dir 0 bodies
              ∧ fs w' = write_all dir 0 bodies (with_dir dir (fs w))
              ∧ dir ≠ ""
              ∧ (fs w !! dir = None ∨ fs w !! dir = Some Dir)
              ∧ (∀ j body, bodies !! j = Some body →
                   http_get E (requests w + j) (image_url url j) = inr body)
              ∧ (fs w !! dir = None →
                 ∀ a, a ∈ ancestors dir → is_file (fs w) a = false)
        | Raise e =>
            evs = [downloading_failed e]
            ∨ ∃ bodies tail,
                length bodies < 5
                ∧ evs = fetch_events url dir 0 bodies ++ tail ++ [downloading_failed e]
                ∧ failed_turn url dir (length bodies) e tail
        end.
Proof.
  rewrite download_run, os_makedirs_run.
  destruct (makedirs_refusal dir (fs w)) as [e0|] eqn:Hrefusal.
  { intros [= <- <-]. cbn. split_and!; try done.
    exists [downloading_failed e0]. rewrite <- app_assoc.
    split_and!; try done; [by repeat constructor|by left]. }
  apply makedirs_refusal_none in Hrefusal as (Hdir & Hlook & Hanc).
  destruct (for_each _ _ _) as [[[]|e] w2] eqn:Hloop;
    apply fetch_loop_spec in Hloop
      as (bodies & tail & Htr & Hfs & Hdisk & Hconn & Hst & Hget & Hr);
    cbn in Htr, Hfs, Hdisk, Hconn, Hst, Hget; intros [= <- <-].
  all: cbn; try destruct Hr as [Hlen ->]; try destruct Hr as [Hlen Hfail].
  all: split_and!; try done.
  1: exists (fetch_events url dir 0 bodies);
    rewrite Htr, app_nil_r, <- app_assoc; (split; [done|]);
    (split; [apply fetch_events_stage|]); exists bodies; split_and!; auto.
  all: exists (fetch_events url dir 0 bodies ++ tail ++ [downloading_failed e]);
    rewrite Htr, <- !app_assoc; (split; [done|]); split;
    [|right; by exists bodies, tail].
  all: rewrite !Forall_app; split_and!;
    [apply fetch_events_stage| |by repeat constructor].
  all: destruct Hfail as [->|(b & -> & _)]; by repeat constructor.
Qed.

Lemma write_all_five (bodies : list bytes) files i body :
  length bodies = 5 → bodies !! i = Some body →
  write_all dir 0 bodies files !! image_path dir i = Some (File body).
Proof.
  intros Hlen Hi.
  do 5 (destruct bodies as [|? bodies]; [done|]). destruct bodies; [|done].
  cbn [write_all].
  do 5 (destruct i as [|i];
        [injection Hi as ->;
         rewrite ?(lookup_insert_ne (M:=gmap string)) by (apply image_path_ne; lia);
         apply lookup_insert_eq|]).
  done.
Qed.

(** A request that raised ends the call: it is the last request, images
    before it were fetched and written once each, and nothing follows but
    the log line. *)
Lemma download_failed_get w r w' evs u e :
  download_images_from_telegram E url dir w = (r, w') →
  trace w' = trace w ++ evs →
  EvGet u (inl e) ∈ evs →
  r = Raise e
  ∧ last evs = Some (downloading_failed e)
  ∧ ∃ k, k < 5 ∧ u = image_url url k
         ∧ requested evs = image_url url <$> seq 0 (S k)
         ∧ written evs = image_path dir <$> seq 0 k.
Proof.
  intros Hrun Htr Hin.
  apply download_spec in Hrun as (_ & _ & _ & evs' & Htr' & _ & Hr).
  rewrite Htr' in Htr. apply (inj (app (trace w))) in Htr as <-.
  apply elem_of_cons in Hin as [?|Hin]; [done|].
  destruct r as [[]|e'].
  { destruct Hr as (bodies & _ & -> & _). by apply fetch_events_answers in Hin. }
  destruct Hr as [->|(bodies & tail & Hlen & -> & Hfail)].
  { apply list_elem_of_singleton in Hin. done. }
  rewrite !elem_of_app in Hin. destruct Hin as [Hin|[Hin|Hin]].
  { by apply fetch_events_answers in Hin. }
  2:{ apply list_elem_of_singleton in Hin. done. }
  destruct Hfail as [->|(body & -> & _)].
  2:{ rewrite !elem_of_cons in Hin. destruct Hin as [?|[?|Hin]]; try done.
      by apply not_elem_of_nil in Hin. }
  apply list_elem_of_singleton in Hin. injection Hin as -> ->.
  split; [done|]. split.
  { rewrite app_comm_cons, !app_assoc. apply last_snoc. }
  exists (length bodies). split; [done|]. split; [done|].
  change (requested (?e :: ?l)) with (requested l).
  change (written (?e :: ?l)) with (written l).
  rewrite requested_app, written_app, requested_fetch_events, written_fetch_events.
  rewrite seq_S, fmap_app. cbn. by rewrite app_nil_r.
Qed.


End Fetcher.

(** ** The schema *)

Section Schema.

Context (E : environment).

Lemma table_ensure_table d : table (ensure_table d) = Some (db_rows d).
Proof. unfold ensure_table, db_rows. by destruct (table d) eqn:Hd; cbn; rewrite ?Hd. Qed.

Lemma ensure_table_idemp d : ensure_table (ensure_table d) = ensure_table d.
Proof. unfold ensure_table. by destruct (table d) eqn:Hd; cbn; rewrite ?Hd. Qed.

Lemma create_run w :
  create_database_table E w =
  match connection_execute E CreateTable w with
  | (Return _, w1) =>
      match connection_commit w1 with
      | (Return _, w2) => (Return (), emit created w2)
      | (Raise e, w2) => (Raise e, emit (creating_failed e) w2)
      end
  | (Raise e, w1) =>
      match connection_rollback w1 with
      | (Return _, w2) => (Raise e, emit (creating_failed e) w2)
      | (Raise e', w2) => (Raise e', emit (creating_failed e') w2)
      end
  end.
Proof.
  unfold create_database_table, try_log. rewrite bind_run. unfold with_connection.
  destruct (connection_execute E CreateTable w) as [[[]|e] w1].
  - by destruct (connection_commit w1) as [[[]|e] w2].
  - by destruct (connection_rollback w1) as [[[]|e'] w2].
Qed.

(** One call on an open connection whose statement the engine takes. *)
Lemma create_once w :
  is_open (conn w) = true →
  sql_fault E (statements w) = None →
  ∃ w1,
    create_database_table E w = (Return (), w1)
    ∧ disk w1 = ensure_table (view w)
    ∧ conn w1 = {| pending := None; is_open := true |}
    ∧ fs w1 = fs w
    ∧ statements w1 = S (statements w)
    ∧ trace w1 = trace w ++ [EvExecute CreateTable; EvCommit; created].
Proof.
  intros Hopen Hok. rewrite create_run. unfold connection_execute. cbn.
  rewrite Hopen, Hok. cbn. unfold view.
  destruct (pending (conn w)) as [d|]; cbn;
    (eexists; split; [done|]; cbn; by rewrite <- !app_assoc).
Qed.

(** C6.  On an open connection, with an engine that takes both
    statements, two calls of [create_database_table] in a row both return;
    after the first the table [object_detections] exists, holding the rows
    that were there if it existed already, and the second call changes
    neither the database nor the connection. *)
Theorem create_database_table_idempotent w :
  is_open (conn w) = true →
  sql_fault E (statements w) = None →
  sql_fault E (S (statements w)) = None →
  ∃ w1 w2,
    create_database_table E w = (Return (), w1)
    ∧ create_database_table E w1 = (Return (), w2)
    ∧ table (disk w1) = Some (db_rows (view w))
    ∧ disk w2 = disk w1
    ∧ conn w2 = conn w1
    ∧ fs w2 = fs w1.
Proof.
  intros Hopen Hok1 Hok2.
  destruct (create_once w Hopen Hok1) as (w1 & Hrun1 & Hdisk1 & Hconn1 & Hfs1 & Hst1 & _).
  destruct (create_once w1) as (w2 & Hrun2 & Hdisk2 & Hconn2 & Hfs2 & _).
  { by rewrite Hconn1. }
  { by rewrite Hst1. }
  exists w1, w2. repeat split; try done.
  - rewrite Hdisk1. apply table_ensure_table.
  - rewrite Hdisk2. unfold view. rewrite Hconn1. cbn.
    rewrite Hdisk1. apply ensure_table_idemp.
  - congruence.
Qed.

End Schema.

(** ** The driver *)

Section Driver.

Context (E : environment).

Lemma in_order_stage s lo evs :
  Forall (at_stage s) evs → lo ≤ rank s → in_order lo evs.
Proof.
  intros Hevs. revert lo. induction Hevs as [|ev evs Hev _ IH]; intros lo Hlo; [done|].
  cbn [in_order]. unfold at_stage in Hev.
  destruct (stage_of ev) as [s'|]; [subst s'; split; auto|auto].
Qed.

Lemma orderly_app k s evs evs' :
  orderly k evs → k ≤ rank s → Forall (at_stage s) evs' →
  orderly (rank s) (evs ++ evs').
Proof.
  intros [Hord Hk] Hks Hs. split.
  - assert (Hlo : 0 ≤ k) by lia. revert Hlo Hord. generalize 0.
    induction Hk as [|ev evs Hev _ IH]; intros lo Hlo Hord.
    + apply in_order_stage with s; [done|lia].
    + cbn [in_order app] in *. destruct (stage_of ev) as [s'|]; [|auto].
      destruct Hord as [Hlo' Hord]. split; [done|]. eauto.
  - apply Forall_app. split.
    + eapply Forall_impl; [done|]. cbn. intros ev Hev s' Hs'. specialize (Hev s' Hs'). lia.
    + eapply Forall_impl; [done|]. cbn. unfold at_stage. intros ev Hev s' Hs'.
      rewrite Hs' in Hev. by subst.
Qed.

Lemma orderly_nil : orderly 0 [].
Proof. split; [done|constructor]. Qed.

Lemma orderly_in k evs ev s :
  orderly k evs → ev ∈ evs → stage_of ev = Some s → rank s ≤ k.
Proof. intros [_ Hk] Hin Hs. rewrite Forall_forall in Hk. eauto. Qed.

Lemma no_failed_get_stage s evs :
  s ≠ Fetching → Forall (at_stage s) evs → no_failed_get evs.
Proof.
  intros Hs Hevs u e Hin. rewrite Forall_forall in Hevs.
  apply Hevs in Hin. unfold at_stage in Hin. cbn in Hin. congruence.
Qed.

Lemma no_failed_get_app evs evs' :
  no_failed_get evs → no_failed_get evs' → no_failed_get (evs ++ evs').
Proof. intros H1 H2 u e Hin. apply elem_of_app in Hin as [?|?]; [by eapply H1|by eapply H2]. Qed.

Lemma connect_spec p w r w0 :
  sqlite3_connect E p w = (r, w0) →
  trace w0 = trace w ++ [EvConnect p]
  ∧ match r with
    | Return _ => is_open (conn w0) = true
    | Raise e => open_fault E p = Some e
    end.
Proof.
  unfold sqlite3_connect. destruct (open_fault E p); by intros [= <- <-].
Qed.

Lemma setup_spec p w r w1 :
  setup_yolo_model E p w = (r, w1) →
  fs w1 = (load_weights E p (fs w)).2 ∧ conn w1 = conn w
  ∧ ∃ l, trace w1 = trace w ++ [EvLoadModel p; EvLog l].
Proof.
  unfold setup_yolo_model, try_log. rewrite bind_run. unfold YOLOv5. cbn.
  destruct (load_weights E p (fs w)) as [[e|m] files]; intros [= <- <-]; cbn;
    (split_and!; [done..|]); eexists; by rewrite <- app_assoc.
Qed.

Lemma detect_spec m dir w r w3 :
  detect_objects_in_images E m dir w = (r, w3) →
  fs w3 = fs w ∧ conn w3 = conn w
  ∧ ∃ evs,
      trace w3 = trace w ++ EvGlob dir :: evs
      ∧ Forall (at_stage Detecting) evs
      ∧ match r with
        | Return ds => image <$> ds = path_name <$> glob_jpg dir (fs w)
        | Raise _ => True
        end.
Proof.
  rewrite detect_run.
  destruct (collect _ _ _) as [[ds|e] w1] eqn:Hloop;
    apply detect_loop_spec in Hloop as (evs & -> & Hst & Hr); intros [= <- <-];
    destruct (emits_frame evs (emit (EvGlob dir) w)) as (Hfs & _ & Hconn & _ & _ & Htr).
  - split_and!; [done..|]. exists evs. rewrite Htr. cbn. rewrite <- app_assoc.
    split_and!; [done..|]. destruct Hr as [Hds _]. by eapply analyse_images.
  - split_and!; [done..|]. exists (evs ++ [detecting_failed e]). cbn. rewrite Htr.
    cbn. rewrite <- !app_assoc. split_and!; [done| |done].
    apply Forall_app. split; [done|]. by repeat constructor.
Qed.

Lemma create_spec w r w4 :
  create_database_table E w = (r, w4) →
  fs w4 = fs w ∧ is_open (conn w4) = is_open (conn w)
  ∧ ∃ fin l,
      trace w4 = trace w ++ [EvExecute CreateTable; fin; EvLog l]
      ∧ (fin = EvCommit ∨ fin = EvRollback).
Proof.
  rewrite create_run. unfold connection_execute, connection_commit, connection_rollback.
  cbn. destruct (is_open (conn w)) eqn:Hopen; cbn; rewrite ?Hopen; cbn.
  - destruct (sql_fault E (statements w)); cbn; rewrite ?Hopen; cbn.
    2: destruct (pending (conn w)).
    all: intros [= <- <-]; cbn; (split_and!; [done..|]);
      eexists _, _; rewrite <- !app_assoc; (split; [done|]); auto.
  - intros [= <- <-]. cbn. split_and!; [done..|].
    eexists _, _. rewrite <- !app_assoc. split; [done|]. auto.
Qed.

Lemma store_stage (attempted : list row) fin l :
  fin = EvCommit ∨ fin = EvRollback →
  Forall (at_stage Persisting) ((EvExecute ∘ Insert <$> attempted) ++ [fin; EvLog l]).
Proof.
  intros Hfin. apply Forall_app. split.
  - apply Forall_fmap, Forall_true. intros r. by cbv.
  - destruct Hfin as [-> | ->]; by repeat constructor.
Qed.

Lemma loaded_spec w m w1 :
  loaded E w m w1 →
  is_open (conn w1) = true
  ∧ ∃ evs, trace w1 = trace w ++ evs ∧ orderly 1 evs ∧ no_failed_get evs.
Proof.
  intros (w0 & H0 & H1).
  apply connect_spec in H0 as [Htr0 Hopen].
  apply setup_spec in H1 as (_ & Hconn & l & Htr1).
  split; [by rewrite Hconn|].
  exists ([EvConnect "detections.db"] ++ [EvLoadModel "yolov5s.pt"; EvLog l]).
  rewrite Htr1, Htr0, <- app_assoc. split; [done|]. split.
  - apply (orderly_app 0 Loading); [|cbn; lia|by repeat constructor].
    apply (orderly_app 0 Opening []); [apply orderly_nil|done|by repeat constructor].
  - apply no_failed_get_app; eapply no_failed_get_stage; try by repeat constructor.
    all: done.
Qed.

Lemma fetched_spec w m w2 :
  fetched E w m w2 →
  is_open (conn w2) = true
  ∧ (∀ i, i < 5 → ∃ body, fs w2 !! image_path "images" i = Some (File body))
  ∧ ∃ evs, trace w2 = trace w ++ evs ∧ orderly 2 evs ∧ no_failed_get evs.
Proof.
  intros (w1 & Hl & H2).
  apply loaded_spec in Hl as (Hopen & evs1 & Htr1 & Hord1 & Hget1).
  apply download_spec in H2
    as (_ & Hconn & _ & evs2 & Htr2 & Hst2 & bodies & Hlen & -> & Hfs & _).
  split; [by rewrite Hconn|]. split.
  - intros i Hi. destruct (lookup_lt_is_Some_2 bodies i) as [body Hbody]; [lia|].
    exists body. rewrite Hfs. by apply write_all_five.
  - exists (evs1 ++ EvMakedirs "images" :: fetch_events channel "images" 0 bodies).
    rewrite Htr2, Htr1, <- app_assoc. split; [done|]. split.
    + apply (orderly_app 1 Fetching); [done|cbn; lia|by constructor].
    + apply no_failed_get_app; [done|]. intros u e Hin.
      apply elem_of_cons in Hin as [?|Hin]; [done|].
      by apply fetch_events_answers in Hin.
Qed.

Lemma detected_spec w ds w3 :
  detected E w ds w3 →
  is_open (conn w3) = true
  ∧ ∃ evs, trace w3 = trace w ++ evs ∧ orderly 3 evs ∧ no_failed_get evs.
Proof.
  intros (m & w2 & Hf & H3).
  apply fetched_spec in Hf as (Hopen & _ & evs2 & Htr2 & Hord2 & Hget2).
  apply detect_spec in H3 as (_ & Hconn & evs3 & Htr3 & Hst3 & _).
  split; [by rewrite Hconn|].
  exists (evs2 ++ EvGlob "images" :: evs3).
  rewrite Htr3, Htr2, <- app_assoc. split; [done|]. split.
  - apply (orderly_app 2 Detecting); [done|cbn; lia|by constructor].
  - apply no_failed_get_app; [done|].
    apply (no_failed_get_stage Detecting); [done|by constructor].
Qed.

(** What every run of [main] looks like: its events come stage after
    stage up to the rank [k] the run reaches; the detector runs only after
    the fetcher has returned, the store only after the detector has; a
    request that raised is met only in a run that ends in the fetcher; and
    a run that raises never closes the connection it opened. *)
Lemma run_spec w r w' :
  run E w r w' →
  ∃ k evs,
    trace w' = trace w ++ evs
    ∧ orderly k evs
    ∧ (3 ≤ k → ∃ m w2, fetched E w m w2)
    ∧ (4 ≤ k → ∃ ds w3, detected E w ds w3)
    ∧ (no_failed_get evs
       ∨ ∃ m w1 e evs1 evs2,
           r = Raise e ∧ k = 2 ∧ loaded E w m w1
           ∧ download_images_from_telegram E channel "images" w1 = (Raise e, w')
           ∧ trace w1 = trace w ++ evs1 ∧ orderly 1 evs1 ∧ evs = evs1 ++ evs2)
    ∧ match r with
      | Return _ => is_open (conn w') = false
      | Raise _ =>
          k ≤ 4 ∧ (open_fault E "detections.db" = None → is_open (conn w') = true)
      end.
Proof.
  destruct 1 as [e w0 H0|w0 e w1 H0 H1|m w1 e w2 Hl H2|m w2 e w3 Hf H3
                |ds w3 e w4 Hd H4|ds w3 w4 e w5 Hd H4 H5|ds w3 w4 w5 w6 Hd H4 H5 H6].
  - apply connect_spec in H0 as [Htr Hfault].
    exists 0, [EvConnect "detections.db"]. split_and!; try done; try lia.
    + apply (orderly_app 0 Opening []); [apply orderly_nil|done|by repeat constructor].
    + left. apply (no_failed_get_stage Opening); [done|by repeat constructor].
    + congruence.
  - assert (Hopen := H0). apply connect_spec in Hopen as [_ Hopen].
    assert (Hconn := H1). apply setup_spec in Hconn as (_ & Hconn & l & Htr1).
    apply connect_spec in H0 as [Htr0 _].
    exists 1, ([EvConnect "detections.db"] ++ [EvLoadModel "yolov5s.pt"; EvLog l]).
    rewrite Htr1, Htr0, <- app_assoc. split_and!; try done; try lia.
    + apply (orderly_app 0 Loading); [|cbn; lia|by repeat constructor].
      apply (orderly_app 0 Opening []); [apply orderly_nil|done|by repeat constructor].
    + left. apply no_failed_get_app; eapply no_failed_get_stage;
        try by repeat constructor. all: done.
    + intros _. by rewrite Hconn.
  - assert (Hl' := Hl). apply loaded_spec in Hl' as (Hopen & evs1 & Htr1 & Hord1 & Hget1).
    assert (H2' := H2).
    apply download_spec in H2' as (_ & Hconn & _ & evs2 & Htr2 & Hst2 & _).
    exists 2, (evs1 ++ EvMakedirs "images" :: evs2).
    rewrite Htr2, Htr1, <- app_assoc. split_and!; try done; try lia.
    + apply (orderly_app 1 Fetching); [done|cbn; lia|by constructor].
    + right. by exists m, w1, e, evs1, (EvMakedirs "images" :: evs2).
    + intros _. by rewrite Hconn.
  - assert (Hf' := Hf). apply fetched_spec in Hf' as (Hopen & _ & evs2 & Htr2 & Hord2 & Hget2).
    apply detect_spec in H3 as (_ & Hconn & evs3 & Htr3 & Hst3 & _).
    exists 3, (evs2 ++ EvGlob "images" :: evs3).
    rewrite Htr3, Htr2, <- app_assoc. split_and!; try done; try lia.
    + apply (orderly_app 2 Detecting); [done|cbn; lia|by constructor].
    + by exists m, w2.
    + left. apply no_failed_get_app; [done|].
      apply (no_failed_get_stage Detecting); [done|by constructor].
    + intros _. by rewrite Hconn.
  - assert (Hd' := Hd). apply detected_spec in Hd' as (Hopen & evs3 & Htr3 & Hord3 & Hget3).
    destruct Hd as (m & w2 & Hf & H3).
    apply create_spec in H4 as (_ & Hop4 & fin & l & Htr4 & Hfin).
    exists 4, (evs3 ++ [EvExecute CreateTable; fin; EvLog l]).
    rewrite Htr4, Htr3, <- app_assoc.
    assert (Forall (at_stage Persisting) [EvExecute CreateTable; fin; EvLog l])
      by (destruct Hfin as [-> | ->]; by repeat constructor).
    split_and!; try done; try lia.
    + by apply (orderly_app 3 Persisting); [|cbn; lia|].
    + by exists m, w2.
    + by exists ds, w3, m, w2.
    + left. apply no_failed_get_app; [done|].
      by apply (no_failed_get_stage Persisting).
    + intros _. by rewrite Hop4.
  - assert (Hd' := Hd). apply detected_spec in Hd' as (Hopen & evs3 & Htr3 & Hord3 & Hget3).
    destruct Hd as (m & w2 & Hf & H3).
    apply create_spec in H4 as (_ & Hop4 & fin & l & Htr4 & Hfin).
    apply store_spec in H5 as (_ & Hop5 & att & fin' & l' & Htr5 & _ & Hfin' & _).
    exists 4, (evs3 ++ [EvExecute CreateTable; fin; EvLog l]
                 ++ (EvExecute ∘ Insert <$> att) ++ [fin'; EvLog l']).
    rewrite Htr5, Htr4, Htr3, <- !app_assoc.
    assert (Forall (at_stage Persisting)
              ([EvExecute CreateTable; fin; EvLog l]
                 ++ (EvExecute ∘ Insert <$> att) ++ [fin'; EvLog l'])).
    { apply Forall_app. split; [|by apply store_stage].
      destruct Hfin as [-> | ->]; by repeat constructor. }
    split_and!; try done; try lia.
    + by apply (orderly_app 3 Persisting); [|cbn; lia|].
    + by exists m, w2.
    + by exists ds, w3, m, w2.
    + left. apply no_failed_get_app; [done|].
      by apply (no_failed_get_stage Persisting).
    + intros _. by rewrite Hop5, Hop4.
  - assert (Hd' := Hd). apply detected_spec in Hd' as (Hopen & evs3 & Htr3 & Hord3 & Hget3).
    destruct Hd as (m & w2 & Hf & H3).
    apply create_spec in H4 as (_ & Hop4 & fin & l & Htr4 & Hfin).
    apply store_spec in H5 as (_ & Hop5 & att & fin' & l' & Htr5 & _ & Hfin' & _).
    injection H6 as <-.
    exists 5, ((evs3 ++ [EvExecute CreateTable; fin; EvLog l]
                  ++ (EvExecute ∘ Insert <$> att) ++ [fin'; EvLog l'])
                 ++ [EvClose; EvLog (Info "Process completed successfully.")]).
    assert (Forall (at_stage Persisting)
              ([EvExecute CreateTable; fin; EvLog l]
                 ++ (EvExecute ∘ Insert <$> att) ++ [fin'; EvLog l'])).
    { apply Forall_app. split; [|by apply store_stage].
      destruct Hfin as [-> | ->]; by repeat constructor. }
    split; [cbn [trace emit set_db]; by rewrite Htr5, Htr4, Htr3, <- !app_assoc|].
    split_and!; try done; try lia.
    + apply (orderly_app 4 Closing); [|cbn; lia|by repeat constructor].
      by apply (orderly_app 3 Persisting); [|cbn; lia|].
    + by exists m, w2.
    + by exists ds, w3, m, w2.
    + left. apply no_failed_get_app.
      * apply no_failed_get_app; [done|]. by apply (no_failed_get_stage Persisting).
      * apply (no_failed_get_stage Closing); [done|by repeat constructor].
Qed.

Lemma main_run w : run E w (main E w).1 (main E w).2.
Proof.
  unfold main. rewrite bind_run.
  destruct (sqlite3_connect E "detections.db" w) as [[[]|e] w0] eqn:H0;
    [|by eapply open_failed].
  rewrite bind_run.
  destruct (setup_yolo_model E "yolov5s.pt" w0) as [[m|e] w1] eqn:H1;
    [|by eapply load_failed].
  assert (loaded E w m w1) as Hl by (by exists w0).
  rewrite bind_run.
  destruct (download_images_from_telegram E channel "images" w1) as [[[]|e] w2] eqn:H2;
    [|by eapply fetch_failed].
  assert (fetched E w m w2) as Hf by (by exists w1).
  rewrite bind_run.
  destruct (detect_objects_in_images E m "images" w2) as [[ds|e] w3] eqn:H3;
    [|by eapply detect_failed].
  assert (detected E w ds w3) as Hd by (by exists m, w2).
  rewrite bind_run.
  destruct (create_database_table E w3) as [[[]|e] w4] eqn:H4;
    [|by eapply create_failed].
  rewrite bind_run.
  destruct (store_detection_results E ds w4) as [[[]|e] w5] eqn:H5;
    [|by eapply store_failed].
  by eapply completed.
Qed.


Lemma quiet_before_fetching evs :
  orderly 1 evs → requested evs = [] ∧ written evs = [].
Proof.
  intros [_ Hk]. induction Hk as [|ev evs Hev _ [IH1 IH2]]; [done|].
  destruct ev; cbn in *; try done.
  all: specialize (Hev _ eq_refl); cbn in Hev; lia.
Qed.

(** C8.  In every run of [main] the events come stage after stage (open,
    load the model, fetch, detect, persist, close), none before an event
    of an earlier stage.  A statement, commit or rollback on the database
    occurs only in a run in which the detector returned, with one group
    per listed file; a directory listing, an image read or an inference
    occurs only in a run in which the fetcher returned, all five files
    written. *)
Theorem main_stages_in_order w r w' :
  main E w = (r, w') →
  ∃ evs,
    trace w' = trace w ++ evs
    ∧ in_order 0 evs
    ∧ (∀ ev, ev ∈ evs → stage_of ev = Some Persisting →
         ∃ m w2 ds w3,
           fetched E w m w2
           ∧ detect_objects_in_images E m "images" w2 = (Return ds, w3)
           ∧ image <$> ds = path_name <$> glob_jpg "images" (fs w2))
    ∧ (∀ ev, ev ∈ evs → stage_of ev = Some Detecting →
         ∃ m w2,
           fetched E w m w2
           ∧ ∀ i, i < 5 → ∃ body, fs w2 !! image_path "images" i = Some (File body)).
Proof.
  intros Hmain. pose proof (main_run w) as Hrun. rewrite Hmain in Hrun. cbn in Hrun.
  apply run_spec in Hrun as (k & evs & Htr & Hord & Hfetched & Hdetected & _).
  exists evs. split; [done|]. split; [apply Hord|]. split.
  - intros ev Hin Hst. pose proof (orderly_in _ _ _ _ Hord Hin Hst) as Hk.
    destruct (Hdetected Hk) as (ds & w3 & m & w2 & Hf & H3).
    exists m, w2, ds, w3. split_and!; try done.
    by apply detect_spec in H3 as (_ & _ & _ & _ & _ & ?).
  - intros ev Hin Hst. pose proof (orderly_in _ _ _ _ Hord Hin Hst) as Hk.
    destruct (Hfetched Hk) as (m & w2 & Hf).
    exists m, w2. split; [done|]. by apply fetched_spec in Hf as (_ & ? & _).
Qed.

(** C7, as amended.  In every run of [main] in which a request of the
    fetcher raises, the run raises that very exception, the one of the
    HTTP library, as it is: the failed request is the last one made, the
    images before it were requested and written once each, the last event
    of the run is the log line of the download error, and the run has no
    event of the detector or of the result store. *)
Theorem failed_fetch_aborts_run w r w' evs u e :
  main E w = (r, w') →
  trace w' = trace w ++ evs →
  EvGet u (inl e) ∈ evs →
  r = Raise e
  ∧ last evs = Some (downloading_failed e)
  ∧ (∃ k, k < 5 ∧ u = image_url channel k
          ∧ requested evs = image_url channel <$> seq 0 (S k)
          ∧ written evs = image_path "images" <$> seq 0 k)
  ∧ Forall (λ ev, stage_of ev ≠ Some Detecting ∧ stage_of ev ≠ Some Persisting) evs.
Proof.
  intros Hmain Htr Hin. pose proof (main_run w) as Hrun. rewrite Hmain in Hrun. cbn in Hrun.
  apply run_spec in Hrun as (k & evs' & Htr' & Hord & _ & _ & Hget & _).
  rewrite Htr' in Htr. apply (inj (app (trace w))) in Htr as ->.
  destruct Hget as [Hget|(m & w1 & e' & evs1 & evs2 & -> & -> & _ & H2 & Htr1 & Hord1 & ->)].
  { by apply Hget in Hin. }
  assert (Hin2 : EvGet u (inl e) ∈ evs2).
  { apply elem_of_app in Hin as [Hin|Hin]; [|done].
    pose proof (orderly_in _ _ _ Fetching Hord1 Hin eq_refl) as Hk. cbn in Hk. lia. }
  destruct (download_failed_get E channel "images" w1 (Raise e') w' evs2 u e)
    as (Hr & Hlast & j & Hj & Hu & Hreq & Hwr); try done.
  { by rewrite Htr', Htr1, <- app_assoc. }
  destruct (quiet_before_fetching evs1 Hord1) as [Hreq1 Hwr1].
  split; [done|]. split; [by rewrite last_app, Hlast|]. split.
  - exists j. by rewrite requested_app, written_app, Hreq1, Hwr1, Hreq, Hwr.
  - destruct Hord as [_ Hk]. eapply Forall_impl; [done|]. cbn. intros ev Hev.
    split; intros Hst; apply Hev in Hst; cbn in Hst; lia.
Qed.

(** A run that raises after the connection was opened ends with the
    connection still open: [connection.close()] is reached only when every
    stage has returned. *)
Lemma raising_run_leaves_connection_open w e w' :
  main E w = (Raise e, w') →
  open_fault E "detections.db" = None →
  is_open (conn w') = true
  ∧ EvClose ∉ drop (length (trace w)) (trace w').
Proof.
  intros Hmain Hfault. pose proof (main_run w) as Hrun. rewrite Hmain in Hrun. cbn in Hrun.
  apply run_spec in Hrun as (k & evs & Htr & Hord & _ & _ & _ & Hk & Hopen).
  split; [auto|]. rewrite Htr, drop_app_length. intros Hin.
  pose proof (orderly_in _ _ _ Closing Hord Hin eq_refl) as Hc. cbn in Hc. lia.
Qed.

End Driver.

(** C9, as stated, fails: the one matching file of the directory does not
    decode, yet a capability that accepts the missing image lets the
    detector return a group for it instead of aborting. *)
Lemma detector_survives_decode_failure :
  "images/bad.jpg" ∈ glob_jpg "images" (fs one_image)
  ∧ imread (undecodable tolerant) (fs one_image) "images/bad.jpg" = None
  ∧ (detect_objects_in_images (undecodable tolerant) tolerant "images" one_image).1
    = Return [{| image := "bad.jpg"; boxes := []; labels := []; confidences := [] |}].
Proof. split; [|split]; vm_compute; [by left|done|done]. Qed.

(** C1, as stated, fails: the engine rejects the second insert of a call
    with an error of its own (say an [sqlite3.IntegrityError]), and that
    very exception is what the call raises; with the table missing the
    call raises the [sqlite3.OperationalError] of the first insert.  No
    PersistenceError comes out: the program has no such type, and the
    [except] clause of the store re-raises what it caught. *)
Lemma store_raises_the_engine_error :
  sql_fault second_statement_fails 1 = Some (External 5)
  ∧ (store_detection_results second_statement_fails two_groups ready).1
    = Raise (External 5)
  ∧ (store_detection_results (calm strict) two_groups no_table).1
    = Raise OperationalError.
Proof. by vm_compute. Qed.


(** C7, as stated, fails: the third request of a run raises an exception
    of the HTTP library (say a [requests.ConnectionError]), and that very
    exception is what the fetcher and then [main] raise.  No FetchError
    comes out: the program has no such type, and the [except] clause of
    the fetcher re-raises what it caught. *)
Lemma fetcher_raises_the_request_error :
  http_get third_request_fails 2 (image_url channel 2) = inl (External 3)
  ∧ (download_images_from_telegram third_request_fails channel "images" fresh).1
    = Raise (External 3)
  ∧ (main third_request_fails fresh).1 = Raise (External 3).
Proof. by vm_compute. Qed.

(** C4, at a failing input: the weights cannot be loaded, [main] raises,
    and the connection it opened at the start is still open when the run
    ends; no [connection.close()] was ever issued. *)
Lemma main_leaks_connection_when_loading_fails :
  (main no_weights fresh).1 = Raise (External 1)
  ∧ is_open (conn (main no_weights fresh).2) = true
  ∧ trace (main no_weights fresh).2
    = [EvConnect "detections.db"; EvLoadModel "yolov5s.pt";
       EvLog (Error "Error loading YOLO model" (External 1))].
Proof. by vm_compute. Qed.

(** ** The theorems at sample inputs *)

Lemma store_detection_results_atomic_sample :
  let failing := store_detection_results second_statement_fails two_groups ready in
  let passing := store_detection_results (calm strict) two_groups ready in
  failing.1 = Raise (External 5) ∧ disk failing.2 = disk ready
  ∧ passing.1 = Return () ∧ length (db_rows (disk passing.2)) = 3.
Proof.
  cbv zeta.
  destruct (store_detection_results_atomic second_statement_fails two_groups ready
              (store_detection_results second_statement_fails two_groups ready).1
              (store_detection_results second_statement_fails two_groups ready).2)
    as [(att & fin & l & _ & _ & _ & Hfail) Hraises].
  { by destruct (store_detection_results second_statement_fails two_groups ready). }
  destruct (store_detection_results_atomic (calm strict) two_groups ready
              (store_detection_results (calm strict) two_groups ready).1
              (store_detection_results (calm strict) two_groups ready).2)
    as [(att' & fin' & l' & _ & _ & _ & Hpass) Hreturns].
  { by destruct (store_detection_results (calm strict) two_groups ready). }
  assert (Hr : (store_detection_results second_statement_fails two_groups ready).1
               = Raise (External 5)).
  { apply Hraises; [reflexivity|by eexists]. }
  assert (Hr' : (store_detection_results (calm strict) two_groups ready).1 = Return ()).
  { apply Hreturns; [reflexivity|by eexists]. }
  rewrite Hr in Hfail. rewrite Hr' in Hpass.
  destruct Hfail as (Hdisk & _). destruct Hpass as (Hall & _ & _ & _ & Hrows).
  split; [exact Hr|]. split; [exact Hdisk|]. split; [exact Hr'|].
  rewrite Hrows, length_app, length_zip, length_seq, Nat.min_id.
  apply (f_equal length) in Hall. rewrite length_fmap in Hall. rewrite <- Hall.
  reflexivity.
Defined.

Lemma store_detection_results_inserts_all_sample :
  Forall aligned two_groups
  ∧ ∃ w' ids,
      store_detection_results (calm strict) two_groups ready = (Return (), w')
      ∧ db_rows (disk w')
        = db_rows (view ready)
          ++ zip ids (d ← two_groups; row_at d <$> seq 0 (length (boxes d)))
      ∧ length (db_rows (view w')) = length (db_rows (view ready)) + 3.
Proof.
  assert (Hal : Forall aligned two_groups).
  { repeat constructor; cbn; lia. }
  split; [done|].
  destruct (store_detection_results_inserts_all (calm strict) two_groups ready)
    as (w' & ids & Hrun & _ & Hrows & _ & _ & Hlen).
  - done.
  - reflexivity.
  - by eexists.
  - intros j _. reflexivity.
  - by exists w', ids.
Defined.

Lemma store_detection_results_truncates_sample :
  ∃ w' ids,
    store_detection_results (calm strict) ragged_groups ready = (Return (), w')
    ∧ db_rows (disk w')
      = zip ids [{| image_name := "c.jpg"; label := "lotion"; confidence := 0.75%Q;
                    x_center := 1%Q; y_center := 2%Q; width := 3%Q; height := 4%Q |}].
Proof.
  destruct (store_detection_results_truncates (calm strict) ragged_groups ready)
    as (w' & ids & Hrun & _ & Hrows & _).
  - repeat constructor; cbn; lia.
  - reflexivity.
  - by eexists.
  - intros j _. reflexivity.
  - by exists w', ids.
Defined.


Lemma detect_objects_in_images_aborts_sample :
  ∃ e' w',
    detect_objects_in_images (undecodable strict) strict "images" one_image = (Raise e', w')
    ∧ last (trace w') = Some (detecting_failed e').
Proof.
  destruct (detect_objects_in_images_aborts (undecodable strict) strict "images"
              one_image "images/bad.jpg" (External 2))
    as (e' & w' & pre & q & post & Hrun & _ & _ & _ & Hlast).
  - apply list_elem_of_In. vm_compute. left. reflexivity.
  - vm_compute. reflexivity.
  - reflexivity.
  - exists e', w'. exact (conj Hrun Hlast).
Defined.


Lemma create_database_table_idempotent_sample :
  ∃ w1 w2,
    create_database_table (calm strict) ready = (Return (), w1)
    ∧ create_database_table (calm strict) w1 = (Return (), w2)
    ∧ disk w2 = disk w1.
Proof.
  destruct (create_database_table_idempotent (calm strict) ready)
    as (w1 & w2 & H1 & H2 & _ & Hdisk & _).
  - reflexivity.
  - reflexivity.
  - reflexivity.
  - by exists w1, w2.
Defined.

Lemma failed_fetch_aborts_run_sample :
  let call := main third_request_fails fresh in
  call.1 = Raise (External 3)
  ∧ Forall (λ ev, stage_of ev ≠ Some Detecting ∧ stage_of ev ≠ Some Persisting)
      (trace call.2).
Proof.
  cbv zeta.
  destruct (failed_fetch_aborts_run third_request_fails fresh
              (main third_request_fails fresh).1 (main third_request_fails fresh).2
              (trace (main third_request_fails fresh).2)
              (image_url channel 2) (External 3))
    as (Hr & _ & _ & Hnone).
  - by destruct (main third_request_fails fresh).
  - reflexivity.
  - apply list_elem_of_In. vm_compute. do 10 right. by left.
  - by split.
Defined.

Lemma main_stages_in_order_sample :
  ∃ evs,
    trace (main (calm strict) fresh).2 = trace fresh ++ evs
    ∧ in_order 0 evs.
Proof.
  destruct (main_stages_in_order (calm strict) fresh
              (main (calm strict) fresh).1 (main (calm strict) fresh).2)
    as (evs & Htr & Hord & _).
  - by destruct (main (calm strict) fresh).
  - exists evs. exact (conj Htr Hord).
Defined.

(** * Further properties *)

(** ** The detector and what it hands to the store *)

Section DetectorOutput.

Context (E : environment) (m : model).

Lemma index_name_is_Some (names : list string) i :
  is_Some (index_name names i)
  ↔ (- Z.of_nat (length names) ≤ i < Z.of_nat (length names))%Z.
Proof.
  unfold index_name. destruct (Z.leb_spec 0 i).
  - rewrite lookup_lt_is_Some. lia.
  - destruct (Z.leb_spec (- Z.of_nat (length names)) i).
    + rewrite lookup_lt_is_Some. lia.
    + split; [by intros []|lia].
Qed.

(** What a successful conversion of the capability's answer holds,
    position by position. *)
Lemma detection_of_rows name res d :
  detection_of name res = Some d →
  ∃ mx,
    xywh res !! 0 = Some mx
    ∧ image d = name ∧ boxes d = entries mx
    ∧ length (labels d) = length (entries mx)
    ∧ length (confidences d) = length (entries mx)
    ∧ (∀ j r, entries mx !! j = Some r →
         ∃ c conf lbl,
           r !! 5 = Some c ∧ r !! 4 = Some conf
           ∧ index_name (names res) (astype_int c) = Some lbl
           ∧ labels d !! j = Some lbl ∧ confidences d !! j = Some conf)
    ∧ 5 < columns mx.
Proof.
  unfold detection_of. intros Hd.
  destruct (xywh res !! 0) as [mx|] eqn:Hmx; [|done]. cbn in Hd.
  unfold column in Hd.
  destruct (Nat.ltb_spec 5 (columns mx)) as [Hwide|]; [|done].
  destruct (Nat.ltb_spec 4 (columns mx)); [|lia].
  destruct (mapM (λ r : list Q, r !! 5) (entries mx)) as [classes|] eqn:Hcls; [|done].
  cbn in Hd.
  destruct (mapM _ (astype_int <$> classes)) as [lbls|] eqn:Hlbls; [|done]. cbn in Hd.
  destruct (mapM (λ r : list Q, r !! 4) (entries mx)) as [confs|] eqn:Hconfs; [|done].
  cbn in Hd.
  injection Hd as <-. cbn.
  apply mapM_Some_1 in Hcls, Hlbls, Hconfs.
  apply Forall2_fmap_l in Hlbls.
  exists mx. split_and!; try done.
  - apply Forall2_length in Hcls, Hlbls. congruence.
  - by apply Forall2_length in Hconfs.
  - intros j r Hr.
    destruct (Forall2_lookup_l _ _ _ _ _ Hcls Hr) as (c & Hc & Hrc).
    destruct (Forall2_lookup_l _ _ _ _ _ Hlbls Hc) as (lbl & Hlbl & Hcl).
    destruct (Forall2_lookup_l _ _ _ _ _ Hconfs Hr) as (conf & Hconf & Hrconf).
    by exists c, conf, lbl.
Qed.

Lemma detect_returns dir w ds w' :
  detect_objects_in_images E m dir w = (Return ds, w') →
  Forall2 (λ p d, analyse E m (fs w) p = inr d) (glob_jpg dir (fs w)) ds.
Proof.
  rewrite detect_run.
  destruct (collect _ _ _) as [[ds'|e] w1] eqn:Hloop; [|done].
  intros [= <- <-]. by apply detect_loop_spec in Hloop as (_ & _ & _ & ? & _).
Qed.

Lemma analyse_detection_of files p d :
  analyse E m files p = inr d →
  ∃ res, m (imread E files p) = inr res ∧ detection_of (path_name p) res = Some d.
Proof.
  unfold analyse. destruct (m _) as [|res]; [done|].
  destruct (detection_of _ res) as [d'|] eqn:Hd; [|done].
  intros [= <-]. by exists res.
Qed.

Lemma detection_of_aligned name res d :
  detection_of name res = Some d →
  aligned d ∧ Forall (λ box, 6 ≤ length box) (boxes d).
Proof.
  intros Hd. apply detection_of_rows in Hd as (mx & _ & _ & Hb & Hl & Hc & Hrows & _).
  unfold aligned. rewrite Hb, Hl, Hc.
  assert (Forall (λ box : list Q, 6 ≤ length box) (entries mx)) as Hsix.
  { apply Forall_lookup. intros j r Hr.
    destruct (Hrows j r Hr) as (c & _ & _ & Hc5 & _).
    apply lookup_lt_Some in Hc5. lia. }
  split; [|done]. split_and!; try done.
  eapply Forall_impl; [done|]. cbn. lia.
Qed.

(** The detector changes nothing: whatever its outcome, the files, the
    database, the connection and the counters of requests and statements
    are as before the call. *)
Theorem detect_objects_in_images_reads_only dir w r w' :
  detect_objects_in_images E m dir w = (r, w') →
  fs w' = fs w ∧ disk w' = disk w ∧ conn w' = conn w
  ∧ requests w' = requests w ∧ statements w' = statements w.
Proof.
  rewrite detect_run.
  destruct (collect _ _ _) as [[ds|e] w1] eqn:Hloop;
    apply detect_loop_spec in Hloop as (evs & -> & _); intros [= <- <-];
    destruct (emits_frame evs (emit (EvGlob dir) w)) as (? & ? & ? & ? & ? & _);
    by split_and!.
Qed.

(** The loop body completes for a file exactly when the capability
    returns for what [cv2.imread] gave and its answer, read as numpy
    arrays, can be indexed: the answer holds a first matrix, the matrix
    has at least six columns, every row of it has its six entries, and
    every class index falls inside the table of names.  In every other
    case the body raises (the capability's exception, or an IndexError). *)
Theorem analyse_succeeds files p :
  (∃ d, analyse E m files p = inr d)
  ↔ ∃ res mx, m (imread E files p) = inr res
              ∧ xywh res !! 0 = Some mx
              ∧ 5 < columns mx
              ∧ Forall (readable (names res)) (entries mx).
Proof.
  split.
  - intros [d Hd]. apply analyse_detection_of in Hd as (res & Hres & Hd).
    apply detection_of_rows in Hd as (mx & Hmx & _ & _ & _ & _ & Hrows & Hwide).
    exists res, mx. split_and!; try done.
    apply Forall_lookup. intros j r Hr.
    destruct (Hrows j r Hr) as (c & conf & lbl & Hc & _ & Hlbl & _).
    exists c. split; [done|]. apply index_name_is_Some. by eexists.
  - intros (res & mx & Hres & Hmx & Hwide & Hrows).
    unfold analyse. rewrite Hres. unfold detection_of. rewrite Hmx. cbn.
    unfold column.
    destruct (Nat.ltb_spec 5 (columns mx)); [|lia].
    destruct (Nat.ltb_spec 4 (columns mx)); [|lia].
    destruct (mapM (λ r : list Q, r !! 5) (entries mx)) as [classes|] eqn:Hcls.
    2:{ apply eq_None_not_Some in Hcls. destruct Hcls. apply mapM_is_Some_2.
        eapply Forall_impl; [done|]. intros r (c & Hc & _). by exists c. }
    cbn. apply mapM_Some_1 in Hcls.
    destruct (mapM _ (astype_int <$> classes)) as [lbls|] eqn:Hlbls.
    2:{ apply eq_None_not_Some in Hlbls. destruct Hlbls. apply mapM_is_Some_2.
        apply Forall_fmap, Forall_lookup. intros j c Hc.
        destruct (Forall2_lookup_r _ _ _ _ _ Hcls Hc) as (r & Hr & Hrc).
        rewrite Forall_lookup in Hrows. destruct (Hrows j r Hr) as (c' & Hc' & Hrange).
        cbn. apply index_name_is_Some. congruence. }
    cbn. destruct (mapM (λ r : list Q, r !! 4) (entries mx)) as [confs|] eqn:Hconfs;
      [by eexists|].
    apply eq_None_not_Some in Hconfs. destruct Hconfs. apply mapM_is_Some_2.
    eapply Forall_impl; [done|]. intros r (c & Hc & _). cbn.
    apply lookup_lt_is_Some. apply lookup_lt_Some in Hc. lia.
Qed.

(** Every group the detector returns has its three arrays of one length,
    one entry per row of the capability's matrix, and boxes of six
    components: the list can be stored as it is. *)
Theorem detector_groups_aligned dir w ds w' :
  detect_objects_in_images E m dir w = (Return ds, w') →
  Forall aligned ds ∧ Forall (λ d, Forall (λ box, 6 ≤ length box) (boxes d)) ds.
Proof.
  intros Hrun. apply detect_returns in Hrun.
  induction Hrun as [|p d ps ds Hp _ [IH1 IH2]]; [by split|].
  apply analyse_detection_of in Hp as (res & _ & Hd).
  apply detection_of_aligned in Hd as [? ?]. by split; constructor.
Qed.

Lemma detected_rows name res d mx :
  detection_of name res = Some d →
  xywh res !! 0 = Some mx →
  attempts [d] = Some <$> (stored_fields name (names res) <$> entries mx).
Proof.
  intros Hd Hmx. assert (Hal := Hd). apply detection_of_aligned in Hal as [Hal _].
  apply detection_of_rows in Hd as (mx' & Hmx' & Hname & Hb & Hl & Hc & Hrows & _).
  assert (mx' = mx) as -> by congruence.
  destruct (aligned_rows [d]) as [-> _]; [by constructor|].
  f_equal. cbn [mbind list_bind]. rewrite app_nil_r, Hb.
  apply list_eq. intros j. rewrite !list_lookup_fmap.
  destruct (entries mx !! j) as [r|] eqn:Hr.
  - rewrite lookup_seq_lt by (by eapply lookup_lt_Some). cbn. f_equal.
    destruct (Hrows j r Hr) as (c & conf & lbl & Hc5 & Hc4 & Hlbl & Hlj & Hcj).
    unfold row_at, triple_row, stored_fields.
    rewrite Hb, Hr, Hlj, Hcj, Hc5, Hc4, Hname. cbn. by rewrite Hlbl.
  - rewrite lookup_seq_ge; [done|]. by apply lookup_ge_None.
Qed.

(** From the capability's answer to the table: storing the group built
    for an image appends one row per row of the answer's matrix, in
    order, holding the image name, the name of the row's class, its
    confidence and its first four numbers as the box (the database
    taking the statements). *)
Theorem store_keeps_detected_fields name res d mx w :
  detection_of name res = Some d →
  xywh res !! 0 = Some mx →
  is_open (conn w) = true →
  is_Some (table (view w)) →
  (∀ j, j < length (entries mx) → sql_fault E (statements w + j) = None) →
  ∃ w' ids,
    store_detection_results E [d] w = (Return (), w')
    ∧ length ids = length (entries mx)
    ∧ db_rows (disk w')
      = db_rows (view w) ++ zip ids (stored_fields name (names res) <$> entries mx).
Proof.
  intros Hd Hmx Hopen Htable Hok.
  pose proof (detected_rows name res d mx Hd Hmx) as Hrows.
  destruct (store_all_rows E [d] _ w Hrows Hopen Htable) as (w' & Hrun & _ & Hdisk & _).
  { by rewrite length_fmap. }
  exists w', (seq (S (sequence (view w))) (length (entries mx))).
  split; [done|]. split; [apply length_seq|].
  by rewrite Hdisk, db_rows_add_rows, length_fmap.
Qed.

(** Detector and store compose: whatever list the detector returns, a
    call of the store on a database that takes the statements returns
    and adds exactly one row per detected box, all committed. *)
Theorem detected_groups_are_stored dir w ds w1 w2 :
  detect_objects_in_images E m dir w = (Return ds, w1) →
  is_open (conn w2) = true →
  is_Some (table (view w2)) →
  (∀ j, j < triples ds → sql_fault E (statements w2 + j) = None) →
  ∃ w3,
    store_detection_results E ds w2 = (Return (), w3)
    ∧ pending (conn w3) = None
    ∧ length (db_rows (disk w3)) = length (db_rows (view w2)) + triples ds.
Proof.
  intros Hrun. assert (Forall aligned ds) as Hal.
  { apply detect_returns in Hrun.
    induction Hrun as [|p d ps ds Hp _ IH]; [constructor|].
    apply analyse_detection_of in Hp as (res & _ & Hd).
    apply detection_of_aligned in Hd as [? _]. by constructor. }
  intros Hopen Htable Hok.
  destruct (aligned_rows ds Hal) as [Hrows Hlen].
  destruct (store_all_rows E ds _ w2 Hrows Hopen Htable) as (w3 & Hstore & _ & Hdisk & Hpend).
  { by rewrite Hlen. }
  exists w3. split_and!; try done.
  rewrite Hdisk, db_rows_add_rows, length_app, length_zip, length_seq, Hlen. lia.
Qed.


End DetectorOutput.

(** ** The result store at its edges *)

Section StoreEdges.

Context (E : environment).

Lemma executed_app evs1 evs2 : executed (evs1 ++ evs2) = executed evs1 ++ executed evs2.
Proof. apply omap_app. Qed.

Lemma executed_insert_events (rows : list row) :
  executed (EvExecute ∘ Insert <$> rows) = Insert <$> rows.
Proof. unfold executed. induction rows as [|r rows IH]; [done|]. cbn. by f_equal. Qed.

(** Storing before the table exists: the first INSERT is an
    OperationalError, the block rolls back, and the error is raised again
    after a single statement. *)
Theorem store_without_table (ds : list detection) r0 rest w :
  attempts ds = Some r0 :: rest →
  is_open (conn w) = true →
  table (view w) = None →
  ∃ w',
    store_detection_results E ds w = (Raise OperationalError, w')
    ∧ disk w' = disk w
    ∧ pending (conn w') = None
    ∧ trace w' = trace w ++ [EvExecute (Insert r0); EvRollback;
                             storing_failed OperationalError].
Proof.
  intros Hatt Hopen Htable. rewrite store_run, Hatt.
  cbn [for_each insert_attempt]. rewrite bind_run.
  unfold connection_execute. cbn. rewrite Hopen. cbn.
  change (view (next_statement (emit (EvExecute (Insert r0)) w))) with (view w).
  rewrite Htable. unfold connection_rollback. cbn. rewrite Hopen. cbn.
  eexists. split; [done|]. cbn. by rewrite <- !app_assoc.
Qed.

(** A box with fewer than four components: the unpacking raises a
    ValueError, and the rows of the same call that were already inserted
    are rolled back with it. *)
Theorem store_rejects_short_box (ds : list detection) (rows : list row) rest w :
  attempts ds = (Some <$> rows) ++ None :: rest →
  is_open (conn w) = true →
  is_Some (table (view w)) →
  (∀ j, j < length rows → sql_fault E (statements w + j) = None) →
  ∃ w',
    store_detection_results E ds w = (Raise ValueError, w')
    ∧ disk w' = disk w
    ∧ pending (conn w') = None
    ∧ executed (drop (length (trace w)) (trace w')) = Insert <$> rows.
Proof.
  intros Hatt Hopen Htable Hok. rewrite store_run, Hatt, for_each_app, bind_run.
  destruct (insert_loop_ok E rows w Hopen Htable Hok) as (w1 & Hrun & Hopen1).
  rewrite Hrun. cbn [for_each insert_attempt raise]. rewrite bind_run. cbn [raise].
  apply insert_loop_spec in Hrun
    as (done & att & Htr & _ & _ & _ & _ & Hdisk & _ & _ & _ & Heq & ->).
  apply (inj (fmap Some)) in Heq as <-.
  unfold connection_rollback. cbn. rewrite Hopen1. cbn.
  eexists. split; [done|]. cbn. rewrite Htr, <- !app_assoc, drop_app_length.
  split_and!; try done.
  by rewrite executed_app, executed_insert_events, app_nil_r.
Qed.

(** Groups without a single triple (nothing was detected, or the list is
    empty): the call issues no statement at all, so it returns even when
    the table does not exist; its commit makes permanent whatever the
    connection had pending. *)
Theorem store_nothing (ds : list detection) w :
  Forall (λ d, min3 d = 0) ds →
  is_open (conn w) = true →
  ∃ w',
    store_detection_results E ds w = (Return (), w')
    ∧ disk w' = view w
    ∧ pending (conn w') = None
    ∧ trace w' = trace w ++ [EvCommit; stored (length ds)].
Proof.
  intros Hds Hopen.
  assert (attempts ds = []) as Hatt.
  { induction Hds as [|d ds Hd _ IH]; [done|].
    unfold attempts. cbn [mbind list_bind]. fold (attempts ds). rewrite IH, app_nil_r.
    unfold min3 in Hd.
    destruct (boxes d), (labels d), (confidences d); cbn in *; done. }
  rewrite store_run, Hatt. cbn [for_each ret].
  unfold connection_commit. cbn. rewrite Hopen. cbn.
  eexists. split; [done|]. cbn. by rewrite <- !app_assoc.
Qed.

(** On a closed connection neither operation of the store does anything
    to the database: both raise a ProgrammingError, whatever the groups. *)
Theorem closed_connection_is_rejected (ds : list detection) w :
  is_open (conn w) = false →
  (∃ w', store_detection_results E ds w = (Raise ProgrammingError, w')
         ∧ disk w' = disk w ∧ is_open (conn w') = false)
  ∧ (∃ w', create_database_table E w = (Raise ProgrammingError, w')
           ∧ disk w' = disk w ∧ is_open (conn w') = false).
Proof.
  intros Hclosed. split.
  - rewrite store_run.
    destruct (for_each _ _ w) as [[[]|e] w1] eqn:Hloop;
      apply insert_loop_spec in Hloop
        as (done & att & _ & _ & _ & _ & _ & Hdisk & _ & Hop & _);
      rewrite Hclosed in Hop;
      unfold connection_commit, connection_rollback; cbn; rewrite Hop; cbn;
      eexists; by split_and!.
  - rewrite create_run. unfold connection_execute. cbn. rewrite Hclosed. cbn.
    unfold connection_rollback. cbn. rewrite Hclosed. cbn.
    eexists. by split_and!.
Qed.

(** When the engine rejects the CREATE statement, the call rolls back,
    logs the error and raises it again; the committed database is left as
    it was. *)
Theorem create_database_table_failure w e :
  is_open (conn w) = true →
  sql_fault E (statements w) = Some e →
  ∃ w',
    create_database_table E w = (Raise e, w')
    ∧ disk w' = disk w
    ∧ pending (conn w') = None
    ∧ trace w' = trace w ++ [EvExecute CreateTable; EvRollback; creating_failed e].
Proof.
  intros Hopen Hfault. rewrite create_run. unfold connection_execute. cbn.
  rewrite Hopen. cbn. rewrite Hfault. unfold connection_rollback. cbn.
  rewrite Hopen. cbn. eexists. split; [done|]. cbn. by rewrite <- !app_assoc.
Qed.

End StoreEdges.

(** ** The image fetcher at its edges *)

Section FetcherEdges.

Context (E : environment) (url dir : string).

Lemma write_all_lookup_other (bodies : list bytes) a files p :
  (∀ j, j < length bodies → image_path dir (a + j) ≠ p) →
  write_all dir a bodies files !! p = files !! p.
Proof.
  revert a files. induction bodies as [|b bodies IH]; intros a files Hp; [done|].
  cbn [write_all]. rewrite IH.
  - apply lookup_insert_ne. specialize (Hp 0). rewrite Nat.add_0_r in Hp.
    apply Hp. cbn. lia.
  - intros j Hj. rewrite Nat.add_succ_comm. apply Hp. cbn. lia.
Qed.

Lemma write_all_lookup (bodies : list bytes) a files i body :
  a + length bodies ≤ 5 →
  bodies !! i = Some body →
  write_all dir a bodies files !! image_path dir (a + i) = Some (File body).
Proof.
  revert a files i. induction bodies as [|b bodies IH]; intros a files i Hlen Hi; [done|].
  cbn [write_all length] in *. destruct i as [|i].
  - injection Hi as ->. rewrite Nat.add_0_r, write_all_lookup_other.
    + apply lookup_insert_eq.
    + intros j Hj. apply image_path_ne; lia.
  - rewrite <- Nat.add_succ_comm. apply IH; [lia|done].
Qed.


Lemma fmap_seq_prefix {A} (f : nat → A) k n :
  k ≤ n → (f <$> seq 0 k) `prefix_of` (f <$> seq 0 n).
Proof.
  intros Hk. replace n with (k + (n - k)) by lia.
  rewrite seq_app, fmap_app. by apply prefix_app_r.
Qed.


(** A target that cannot be a directory ends the call before any
    request: the empty path is a FileNotFoundError, an existing regular
    file a FileExistsError; nothing is fetched and nothing written. *)
Theorem download_images_refuses_target w :
  dir = "" ∨ (∃ content, fs w !! dir = Some (File content)) →
  ∃ e w',
    download_images_from_telegram E url dir w = (Raise e, w')
    ∧ e = (if String.eqb dir "" then FileNotFoundError else FileExistsError)
    ∧ fs w' = fs w ∧ requests w' = requests w
    ∧ trace w' = trace w ++ [EvMakedirs dir; downloading_failed e].
Proof.
  intros Hbad. rewrite download_run, os_makedirs_run. unfold makedirs_refusal.
  destruct (String.eqb dir "") eqn:Hdir.
  - eexists _, _. split; [done|]. cbn. by rewrite <- app_assoc.
  - destruct Hbad as [->|[content Hfile]]; [done|]. rewrite Hfile.
    eexists _, _. split; [done|]. cbn. by rewrite <- app_assoc.
Qed.

(** Nothing is cleaned up when a request fails: if the request for
    image [k] raises, images [0 .. k-1] stay in the directory, each with
    the body that was answered for it. *)
Theorem download_images_failure_keeps_files w r w' evs u e :
  download_images_from_telegram E url dir w = (r, w') →
  trace w' = trace w ++ evs →
  EvGet u (inl e) ∈ evs →
  ∃ k, k < 5 ∧ u = image_url url k
       ∧ ∀ i, i < k →
           ∃ body, http_get E (requests w + i) (image_url url i) = inr body
                   ∧ fs w' !! image_path dir i = Some (File body).
Proof.
  rewrite download_run, os_makedirs_run. intros Hrun Htr Hin.
  destruct (makedirs_refusal dir (fs w)) as [e0|].
  { injection Hrun as <- <-. cbn in Htr. rewrite <- app_assoc in Htr.
    apply (inj (app (trace w))) in Htr as <-. cbn [app] in Hin.
    rewrite !elem_of_cons in Hin. destruct Hin as [?|[?|Hin]]; try done.
    by apply not_elem_of_nil in Hin. }
  destruct (for_each _ _ _) as [[[]|e'] w2] eqn:Hloop;
    apply fetch_loop_spec in Hloop
      as (bodies & tail & Htr2 & Hfs & _ & _ & _ & Hget & Hr);
    cbn [trace fs requests emit set_fs] in Htr2, Hfs, Hget;
    injection Hrun as <- <-; cbn [trace emit] in Htr;
    rewrite Htr2, <- !app_assoc in Htr; apply (inj (app (trace w))) in Htr as <-.
  all: rewrite !elem_of_app in Hin.
  1: destruct Hr as [_ ->]; destruct Hin as [Hin|[Hin|Hin]];
    [by apply list_elem_of_singleton in Hin
    |by apply fetch_events_answers in Hin
    |by apply not_elem_of_nil in Hin].
  all: destruct Hr as [Hlen Hfail]; destruct Hin as [Hin|[Hin|[Hin|Hin]]];
    [by apply list_elem_of_singleton in Hin
    |by apply fetch_events_answers in Hin
    |
    |by apply list_elem_of_singleton in Hin].
  all: destruct Hfail as [->|(b & -> & _)];
    [|rewrite !elem_of_cons in Hin; destruct Hin as [?|[?|Hin]]; try done;
      by apply not_elem_of_nil in Hin].
  all: apply list_elem_of_singleton in Hin; injection Hin as -> ->.
  all: exists (length bodies); split; [done|]; split; [done|].
  all: intros i Hi; destruct (lookup_lt_is_Some_2 bodies i Hi) as [body Hbody];
    exists body; split; [by apply Hget|];
    change (fs (emit _ w2)) with (fs w2);
    rewrite Hfs; apply (write_all_lookup bodies 0); [cbn; lia|done].
Qed.

End FetcherEdges.

(** ** From the fetcher to the detector *)

Lemma after_last_slash_plain n cur :
  no_slash n = true → after_last_slash n cur = cur.
Proof.
  induction n as [|c n IH]; intros Hn; [done|].
  cbn in Hn |- *. apply andb_true_iff in Hn as [Hc Hn].
  apply negb_true_iff in Hc. rewrite Hc. by apply IH.
Qed.

Lemma after_last_slash_component a n cur :
  no_slash n = true → after_last_slash (a +:+ String "/" n) cur = n.
Proof.
  intros Hn. revert cur. induction a as [|c a IH]; intros cur.
  - simpl. by apply after_last_slash_plain.
  - simpl. destruct (Ascii.eqb c "/"); apply IH.
Qed.

Lemma image_path_plain dir i :
  String.eqb dir "" || ends_with "/" dir = false →
  image_path dir i = dir +:+ String "/" (image_file i).
Proof. unfold image_path, path_join. cbn -[image_file]. by intros ->. Qed.

Lemma split_path_cons p : ∃ c cs, split_path p = c :: cs.
Proof.
  induction p as [|a p (c & cs & IH)]; [by eexists _, _|].
  cbn. destruct (Ascii.eqb a "/"); [by eexists _, _|]. rewrite IH. by eexists _, _.
Qed.

Lemma split_path_app a b :
  split_path (a +:+ String "/" b) = split_path a ++ split_path b.
Proof.
  induction a as [|c a IH]; [done|].
  simpl. rewrite IH. destruct (Ascii.eqb c "/"); [done|].
  by destruct (split_path_cons a) as (x & xs & ->).
Qed.

Lemma split_path_plain n : no_slash n = true → split_path n = [n].
Proof.
  induction n as [|c n IH]; [done|]. cbn. intros Hn.
  apply andb_true_iff in Hn as [Hc Hn]. apply negb_true_iff in Hc.
  by rewrite Hc, IH.
Qed.

Lemma starts_with_app p a b : a ≠ "" → starts_with (String p "") (a +:+ b) = starts_with (String p "") a.
Proof. destruct a as [|c a]; [done|]. intros _. simpl. by destruct (Ascii.eqb p c). Qed.

(** A name added to a path leads one step further. *)
Lemma resolve_child dir n :
  dir ≠ "" → no_slash n = true →
  String.eqb n "" || String.eqb n "." || String.eqb n ".." = false →
  resolve (dir +:+ String "/" n) = n :: resolve dir.
Proof.
  intros Hdir Hn Hname. unfold resolve.
  rewrite (starts_with_app _ dir) by done.
  rewrite split_path_app, (split_path_plain n), foldl_app by done.
  cbn [foldl]. unfold enter at 1.
  apply orb_false_iff in Hname as [Hname Hup].
  by rewrite Hname, Hup.
Qed.

(** A fetched file is one the detector's listing finds, under its name. *)
Lemma listed_image dir (files : gmap string node) i :
  i < 5 →
  String.eqb dir "" || ends_with "/" dir = false →
  is_Some (files !! image_path dir i) →
  image_path dir i ∈ glob_jpg dir files
  ∧ path_name (image_path dir i) = image_file i.
Proof.
  intros Hi Hdir [x Hx].
  assert (path_name (image_path dir i) = image_file i) as Hname.
  { rewrite image_path_plain by done. apply after_last_slash_component.
    do 5 (destruct i as [|i]; [done|]). lia. }
  split; [|done]. unfold glob_jpg. apply list_elem_of_In, filter_In. split.
  - apply list_elem_of_In, list_elem_of_fmap. exists (image_path dir i, x).
    split; [done|]. by apply elem_of_map_to_list.
  - rewrite Hname. apply andb_true_iff. split.
    + apply bool_decide_eq_true. rewrite image_path_plain by done.
      apply orb_false_iff in Hdir as [Hdir _]. apply String.eqb_neq in Hdir.
      apply resolve_child; [done|..]; do 5 (destruct i as [|i]; [done|]); lia.
    + do 5 (destruct i as [|i]; [done|]). lia.
Qed.

Section Pipeline.

Context (E : environment).

(** What the fetcher leaves is what the detector lists: after a call that
    returned, each of the five files is an entry of the directory for
    [Path(dir).glob("*.jpg")], under the name [image_i.jpg] (the directory
    being given without a trailing slash). *)
Theorem fetched_images_are_listed url dir w w' :
  download_images_from_telegram E url dir w = (Return (), w') →
  String.eqb dir "" || ends_with "/" dir = false →
  ∀ i, i < 5 →
    image_path dir i ∈ glob_jpg dir (fs w')
    ∧ path_name (image_path dir i) = image_file i.
Proof.
  intros Hrun Hdir i Hi.
  apply download_spec in Hrun
    as (_ & _ & _ & evs & _ & _ & bodies & Hlen & _ & Hfs & _).
  apply listed_image; [done..|].
  destruct (lookup_lt_is_Some_2 bodies i) as [body Hbody]; [lia|].
  exists (File body). rewrite Hfs.
  apply (write_all_lookup dir bodies 0); [cbn; lia|done].
Qed.


Lemma setup_disk p w r w' : setup_yolo_model E p w = (r, w') → disk w' = disk w.
Proof.
  unfold setup_yolo_model, try_log. rewrite bind_run. unfold YOLOv5. cbn.
  by destruct (load_weights E p (fs w)) as [[e|m'] files]; intros [= <- <-].
Qed.

Lemma detect_disk m dir w r w' :
  detect_objects_in_images E m dir w = (r, w') → disk w' = disk w.
Proof.
  rewrite detect_run.
  destruct (collect _ _ _) as [[ds|e] w1] eqn:Hloop;
    apply detect_loop_spec in Hloop as (evs & -> & _); intros [= <- <-];
    by destruct (emits_frame evs (emit (EvGlob dir) w)) as (_ & ? & _).
Qed.

Lemma connect_frame p w r w0 :
  sqlite3_connect E p w = (r, w0) →
  disk w0 = disk w
  ∧ match r with
    | Return _ => conn w0 = {| pending := None; is_open := true |}
    | Raise _ => True
    end.
Proof. unfold sqlite3_connect. by destruct (open_fault E p); intros [= <- <-]. Qed.

Lemma detected_frame w ds w3 :
  detected E w ds w3 →
  disk w3 = disk w ∧ conn w3 = {| pending := None; is_open := true |}.
Proof.
  intros (m & w2 & (w1 & (w0 & H0 & H1) & H2) & H3).
  apply connect_frame in H0 as [Hd0 Hc0].
  pose proof (setup_disk _ _ _ _ H1) as Hd1.
  apply setup_spec in H1 as (_ & Hc1 & _).
  apply download_spec in H2 as (Hd2 & Hc2 & _).
  pose proof (detect_disk _ _ _ _ _ H3) as Hd3.
  apply detect_spec in H3 as (_ & Hc3 & _).
  split; congruence.
Qed.

Lemma create_outcome w r w' :
  create_database_table E w = (r, w') →
  match r with
  | Return _ =>
      disk w' = ensure_table (view w)
      ∧ conn w' = {| pending := None; is_open := true |}
  | Raise _ => disk w' = disk w
  end.
Proof.
  rewrite create_run. unfold connection_execute, connection_commit, connection_rollback.
  cbn. destruct (is_open (conn w)) eqn:Hopen; cbn; rewrite ?Hopen; cbn.
  - destruct (sql_fault E (statements w)); cbn; rewrite ?Hopen; cbn.
    2: unfold view; destruct (pending (conn w)).
    all: by intros [= <- <-].
  - by intros [= <- <-].
Qed.

Lemma db_rows_ensure_table d : db_rows (ensure_table d) = db_rows d.
Proof. unfold ensure_table, db_rows. by destruct (table d) eqn:Hd; cbn; rewrite ?Hd. Qed.

Lemma sequence_ensure_table d : sequence (ensure_table d) = sequence d.
Proof. unfold ensure_table. by destruct (table d). Qed.

Lemma sequence_add_rows rows d : sequence (add_rows rows d) = sequence d + length rows.
Proof.
  revert d. induction rows as [|r rows IH]; intros d; [cbn; lia|].
  rewrite add_rows_cons, IH. cbn. lia.
Qed.

(** A run of [main] that returns has stored everything and closed the
    connection: the table holds the rows it held before the run followed
    by one row per detected box, in the order of the groups, all
    committed; nothing is pending; the last event is the closing log
    line. *)
Theorem completed_run_stores_and_closes w w' :
  main E w = (Return (), w') →
  ∃ ds w3 rows ids,
    detected E w ds w3
    ∧ attempts ds = Some <$> rows
    ∧ length rows = triples ds
    ∧ length ids = length rows
    ∧ table (disk w') = Some (db_rows (disk w) ++ zip ids rows)
    ∧ conn w' = {| pending := None; is_open := false |}
    ∧ last (trace w') = Some (EvLog (Info "Process completed successfully.")).
Proof.
  intros Hmain. pose proof (main_run E w) as Hrun. rewrite Hmain in Hrun. cbn in Hrun.
  inversion Hrun as [| | | | | |ds w3 w4 w5 w6 Hd H4 H5 H6 Hr Hw]. subst.
  pose proof (detected_frame w ds w3 Hd) as [Hdisk3 Hconn3].
  assert (Forall aligned ds) as Hal.
  { destruct Hd as (m & w2 & _ & H3). apply detect_returns in H3.
    clear -H3. induction H3 as [|p d ps ds Hp _ IH]; [constructor|].
    apply analyse_detection_of in Hp as (res & _ & Hd).
    apply detection_of_aligned in Hd as [? _]. by constructor. }
  destruct (aligned_rows ds Hal) as [Hrows Hlen].
  apply create_outcome in H4 as [Hdisk4 Hconn4].
  apply store_spec in H5 as (_ & _ & att & fin & l & _ & _ & _ & Hall & _ & _ & Hdisk5 & _).
  rewrite Hrows in Hall. apply (inj (fmap Some)) in Hall as <-.
  injection H6 as <-.
  exists ds, w3, (d ← ds; row_at d <$> seq 0 (length (boxes d))),
    (seq (S (sequence (disk w))) (triples ds)).
  split_and!; try done.
  - by rewrite length_seq.
  - cbn. rewrite Hdisk5.
    assert (view w4 = ensure_table (disk w)) as ->.
    { unfold view. rewrite Hconn4. cbn. rewrite Hdisk4. unfold view.
      rewrite Hconn3. cbn. by rewrite Hdisk3. }
    rewrite table_add_rows by (rewrite table_ensure_table; by eexists).
    by rewrite db_rows_add_rows, db_rows_ensure_table, sequence_ensure_table, Hlen.
  - cbn. apply last_snoc.
Qed.

(** A run of [main] that raises adds no row: whatever the stage that
    failed, the committed table holds exactly the rows it held before the
    run (a failure of the store itself included: its inserts are rolled
    back). *)
Theorem failed_run_adds_no_row w e w' :
  main E w = (Raise e, w') →
  db_rows (disk w') = db_rows (disk w)
  ∧ sequence (disk w') = sequence (disk w).
Proof.
  intros Hmain. pose proof (main_run E w) as Hrun. rewrite Hmain in Hrun. cbn in Hrun.
  inversion Hrun as [e0 w0 H0|w0 e0 w1 H0 H1|m w1 e0 w2 Hl H2|m w2 e0 w3 Hf H3
                    |ds w3 e0 w4 Hd H4|ds w3 w4 e0 w5 Hd H4 H5|]; subst.
  - apply connect_frame in H0 as [-> _]. done.
  - apply connect_frame in H0 as [Hd0 _]. apply setup_disk in H1. by rewrite H1, Hd0.
  - destruct Hl as (w0 & H0 & H1).
    apply connect_frame in H0 as [Hd0 _]. apply setup_disk in H1.
    apply download_spec in H2 as (Hd2 & _). by rewrite Hd2, H1, Hd0.
  - destruct Hf as (w1 & (w0 & H0 & H1) & H2).
    apply connect_frame in H0 as [Hd0 _]. apply setup_disk in H1.
    apply download_spec in H2 as (Hd2 & _). apply detect_disk in H3.
    by rewrite H3, Hd2, H1, Hd0.
  - apply detected_frame in Hd as [Hdisk3 _].
    apply create_outcome in H4. by rewrite H4, Hdisk3.
  - apply detected_frame in Hd as [Hdisk3 Hconn3].
    apply create_outcome in H4 as [Hdisk4 _].
    apply store_spec in H5 as (_ & _ & att & fin & l & _ & _ & _ & Hdisk5 & _).
    rewrite Hdisk5, Hdisk4. unfold view. rewrite Hconn3. cbn. rewrite Hdisk3.
    by rewrite db_rows_ensure_table, sequence_ensure_table.
Qed.

(** In every run of [main] in which the detector returns, its groups
    include one for each of the five images the fetcher has just
    written. *)
Theorem detected_groups_cover_batch w ds w3 :
  detected E w ds w3 →
  ∀ i, i < 5 → image_file i ∈ image <$> ds.
Proof.
  intros (m & w2 & Hf & H3) i Hi.
  apply fetched_spec in Hf as (_ & Hfiles & _).
  destruct (Hfiles i Hi) as [body Hbody].
  destruct (listed_image "images" (fs w2) i) as [Hin Hname]; [done..|by eexists|].
  apply detect_spec in H3 as (_ & _ & evs & _ & _ & ->).
  rewrite <- Hname. apply list_elem_of_fmap. by exists (image_path "images" i).
Qed.

End Pipeline.

(** ** The further properties at sample inputs *)


Lemma detect_objects_in_images_reads_only_sample :
  fs (detect_objects_in_images (calm strict) strict "images" two_images).2
  = fs two_images.
Proof.
  destruct (detect_objects_in_images_reads_only (calm strict) strict "images" two_images
              (detect_objects_in_images (calm strict) strict "images" two_images).1
              (detect_objects_in_images (calm strict) strict "images" two_images).2)
    as (Hfs & _).
  - by destruct (detect_objects_in_images (calm strict) strict "images" two_images).
  - exact Hfs.
Defined.

Lemma analyse_succeeds_sample :
  ∃ d, analyse (calm strict) strict (fs two_images) "images/x.jpg" = inr d.
Proof.
  apply (analyse_succeeds (calm strict) strict (fs two_images) "images/x.jpg").
  exists one_jar, {| columns := 6; entries := [[120.5; 64; 40; 30; 0.87; 1]%Q] |}.
  split; [vm_compute; reflexivity|]. split; [reflexivity|]. split; [cbn; lia|].
  repeat constructor. exists 1%Q. split; [reflexivity|]. vm_compute. by split.
Defined.

Lemma detector_groups_aligned_sample :
  Forall aligned [jar_group "y.jpg"; jar_group "x.jpg"].
Proof.
  destruct (detector_groups_aligned (calm strict) strict "images" two_images
              [jar_group "y.jpg"; jar_group "x.jpg"]
              (detect_objects_in_images (calm strict) strict "images" two_images).2)
    as [Hal _].
  - vm_compute. reflexivity.
  - exact Hal.
Defined.


Lemma store_keeps_detected_fields_sample :
  ∃ w' ids,
    store_detection_results (calm strict) [jar_group "x.jpg"] ready = (Return (), w')
    ∧ length ids = 1
    ∧ db_rows (disk w')
      = zip ids [{| image_name := "x.jpg"; label := "cream jar"; confidence := 0.87%Q;
                    x_center := 120.5%Q; y_center := 64%Q; width := 40%Q;
                    height := 30%Q |}].
Proof.
  destruct (store_keeps_detected_fields (calm strict) "x.jpg" one_jar (jar_group "x.jpg")
              {| columns := 6; entries := [[120.5; 64; 40; 30; 0.87; 1]%Q] |} ready)
    as (w' & ids & Hrun & Hlen & Hrows).
  - reflexivity.
  - reflexivity.
  - reflexivity.
  - by eexists.
  - intros j _. reflexivity.
  - by exists w', ids.
Defined.

Lemma detected_groups_are_stored_sample :
  ∃ w3,
    store_detection_results (calm strict) [jar_group "y.jpg"; jar_group "x.jpg"] ready
    = (Return (), w3)
    ∧ length (db_rows (disk w3)) = 2.
Proof.
  destruct (detected_groups_are_stored (calm strict) strict "images" two_images
              [jar_group "y.jpg"; jar_group "x.jpg"]
              (detect_objects_in_images (calm strict) strict "images" two_images).2 ready)
    as (w3 & Hrun & _ & Hlen).
  - vm_compute. reflexivity.
  - reflexivity.
  - by eexists.
  - intros j _. reflexivity.
  - exists w3. split; [exact Hrun|exact Hlen].
Defined.

Lemma store_without_table_sample :
  ∃ w', store_detection_results (calm strict) two_groups no_table
        = (Raise OperationalError, w')
        ∧ disk w' = disk no_table.
Proof.
  destruct (store_without_table (calm strict) two_groups
              {| image_name := "a.jpg"; label := "cream jar"; confidence := 0.87%Q;
                 x_center := 120.5%Q; y_center := 64%Q; width := 40%Q; height := 30%Q |}
              (List.tl (attempts two_groups)) no_table)
    as (w' & Hrun & Hdisk & _).
  - reflexivity.
  - reflexivity.
  - reflexivity.
  - exists w'. split; [exact Hrun|exact Hdisk].
Defined.

Lemma store_rejects_short_box_sample :
  ∃ w', store_detection_results (calm strict) short_box_groups ready
        = (Raise ValueError, w')
        ∧ disk w' = disk ready.
Proof.
  destruct (store_rejects_short_box (calm strict) short_box_groups
              [{| image_name := "s.jpg"; label := "lotion"; confidence := 0.5%Q;
                  x_center := 1%Q; y_center := 2%Q; width := 3%Q; height := 4%Q |}]
              [] ready)
    as (w' & Hrun & Hdisk & _).
  - reflexivity.
  - reflexivity.
  - by eexists.
  - intros j _. reflexivity.
  - exists w'. split; [exact Hrun|exact Hdisk].
Defined.

Lemma store_nothing_sample :
  ∃ w', store_detection_results (calm strict) nothing_detected no_table = (Return (), w')
        ∧ disk w' = view no_table.
Proof.
  destruct (store_nothing (calm strict) nothing_detected no_table)
    as (w' & Hrun & Hdisk & _).
  - repeat constructor.
  - reflexivity.
  - exists w'. split; [exact Hrun|exact Hdisk].
Defined.

Lemma closed_connection_is_rejected_sample :
  ∃ w', store_detection_results (calm strict) two_groups fresh
        = (Raise ProgrammingError, w')
        ∧ disk w' = disk fresh.
Proof.
  destruct (closed_connection_is_rejected (calm strict) two_groups fresh)
    as [(w' & Hrun & Hdisk & _) _].
  - reflexivity.
  - exists w'. split; [exact Hrun|exact Hdisk].
Defined.

Lemma create_database_table_failure_sample :
  ∃ w', create_database_table engine_down no_table = (Raise (External 9), w')
        ∧ disk w' = disk no_table.
Proof.
  destruct (create_database_table_failure engine_down no_table (External 9))
    as (w' & Hrun & Hdisk & _).
  - reflexivity.
  - reflexivity.
  - exists w'. split; [exact Hrun|exact Hdisk].
Defined.


Lemma download_images_refuses_target_sample :
  ∃ e w', download_images_from_telegram (calm strict) channel "images" blocked
          = (Raise e, w')
          ∧ e = FileExistsError.
Proof.
  destruct (download_images_refuses_target (calm strict) channel "images" blocked)
    as (e & w' & Hrun & He & _).
  - right. exists []. vm_compute. reflexivity.
  - exists e, w'. split; [exact Hrun|exact He].
Defined.

Lemma download_images_failure_keeps_files_sample :
  ∃ k, k < 5
       ∧ image_url channel 2 = image_url channel k
       ∧ ∀ i, i < k →
           ∃ body,
             http_get third_request_fails (requests fresh + i) (image_url channel i)
             = inr body
             ∧ fs (download_images_from_telegram third_request_fails channel
                     "images" fresh).2
               !! image_path "images" i = Some (File body).
Proof.
  apply (download_images_failure_keeps_files third_request_fails channel "images" fresh
           (download_images_from_telegram third_request_fails channel "images" fresh).1
           (download_images_from_telegram third_request_fails channel "images" fresh).2
           (trace (download_images_from_telegram third_request_fails channel
                     "images" fresh).2)
           (image_url channel 2) (External 3)).
  - by destruct (download_images_from_telegram third_request_fails channel "images" fresh).
  - reflexivity.
  - apply list_elem_of_In. vm_compute. do 7 right. left. reflexivity.
Defined.

Lemma fetched_images_are_listed_sample :
  image_path "images" 3
  ∈ glob_jpg "images"
      (fs (download_images_from_telegram (calm strict) channel "images" fresh).2).
Proof.
  destruct (fetched_images_are_listed (calm strict) channel "images" fresh
              (download_images_from_telegram (calm strict) channel "images" fresh).2)
    with (i := 3) as [Hin _].
  - vm_compute. reflexivity.
  - reflexivity.
  - lia.
  - exact Hin.
Defined.

Lemma completed_run_stores_and_closes_sample :
  conn (main (calm strict) fresh).2 = {| pending := None; is_open := false |}.
Proof.
  destruct (completed_run_stores_and_closes (calm strict) fresh
              (main (calm strict) fresh).2)
    as (ds & w3 & rows & ids & _ & _ & _ & _ & _ & Hconn & _).
  - vm_compute. reflexivity.
  - exact Hconn.
Defined.

Lemma failed_run_adds_no_row_sample :
  (main second_statement_fails fresh).1 = Raise (External 5)
  ∧ db_rows (disk (main second_statement_fails fresh).2) = db_rows (disk fresh).
Proof.
  split; [vm_compute; reflexivity|].
  destruct (failed_run_adds_no_row second_statement_fails fresh (External 5)
              (main second_statement_fails fresh).2)
    as [Hrows _].
  - vm_compute. reflexivity.
  - exact Hrows.
Defined.

Lemma raising_run_leaves_connection_open_sample :
  is_open (conn (main second_statement_fails fresh).2) = true.
Proof.
  destruct (raising_run_leaves_connection_open second_statement_fails fresh (External 5)
              (main second_statement_fails fresh).2)
    as [Hopen _].
  - vm_compute. reflexivity.
  - reflexivity.
  - exact Hopen.
Defined.

Lemma detected_groups_cover_batch_sample :
  ∃ ds w3, detected (calm strict) fresh ds w3 ∧ image_file 4 ∈ image <$> ds.
Proof.
  assert (∃ ds w3, detected (calm strict) fresh ds w3) as (ds & w3 & Hd).
  { unfold detected, fetched, loaded. eexists _, _, strict, _. split.
    - eexists. split.
      + eexists. split; vm_compute; reflexivity.
      + vm_compute. reflexivity.
    - vm_compute. reflexivity. }
  exists ds, w3. split; [exact Hd|].
  apply (detected_groups_cover_batch (calm strict) fresh ds w3 Hd). lia.
Defined.
